(** * vqp: schema validation of nested objects

    A shallow embedding of the validation core of the vqp package: the
    built-in validators (src/validators.js), the path utilities
    [join], [enumerate] and [walk] (src/utils.js) and the [Property] class
    (src/property.js), with the properties of the specification stated and
    proved over it.

    JavaScript values are modelled by the inductive type [jsval]:
    - numbers are the integers: NaN, the infinities and fractions are left
      out, and a comparison that would involve NaN is false as in the
      language;
    - strings are byte strings, so that [String.length] is the [length] of
      the language on ASCII text;
    - a function is a reference, compared by identity, that carries its
      [name] and its [length] (the number of its declared parameters); what
      calling it returns is a parameter of the definitions that call
      functions;
    - a value of type [jsval] that is an object carries its class (the
      [constructor] it inherits) and its own properties in enumeration
      order; dates and regular expressions have no properties besides
      [constructor];
    - the two plain objects that a property creates for itself, its rule
      registry and its messages, inherit the members of [Object.prototype],
      and an assignment under the name [__proto__] reaches the setter of
      that name instead of creating a property;
    - arrays inside values are immutable lists; the arrays whose identity
      matters (those given to [use] and held by the registry) live in a
      store and are named by their location. *)

From Stdlib Require Import ZArith String Ascii List Lia Bool DecimalString Sorted.
From stdpp Require Import base tactics option list strings gmap.

Set Warnings "-register-all".

Local Open Scope string_scope.
Local Open Scope list_scope.
Local Open Scope Z_scope.

(** ** Values *)

(** Function objects are compared by identity ([===]).  The built-in
    constructors and the methods of [Object.prototype] are distinguished
    references; a function of the program is given by its name, a number
    that tells it from the other functions of that name, and the number of
    its declared parameters. *)
Inductive funref : Type :=
| FObject | FFunction | FArray | FString | FNumber | FBoolean | FDate | FRegExp
| FObjectMethod (name : string)
| FUser (name : string) (id : nat) (params : nat).

#[global] Instance funref_eq_dec : EqDecision funref.
Proof. solve_decision. Defined.

Inductive jsval : Type :=
| VUndefined
| VNull
| VBool (b : bool)
| VNum (n : Z)
| VStr (s : string)
| VFun (f : funref)
| VDate (t : Z)
| VRegExp (src : string)
| VArr (xs : list jsval)
| VObj (c : funref) (props : list (string * jsval)).

(** Outcome of running a piece of code: a result, or an abrupt completion.
    [OutOfModel] marks an operation whose JavaScript semantics needs a
    conversion that this development does not model (string-to-number,
    object-to-primitive); it is never used to stand for a result. *)
Inductive err : Type := TypeError | UnknownType (name : string) | OutOfModel.

Inductive res (A : Type) : Type :=
| Ok (a : A)
| Err (e : err).
Arguments Ok {A} a.
Arguments Err {A} e.

Definition res_bind {A B} (m : res A) (k : A -> res B) : res B :=
  match m with
  | Ok a => k a
  | Err e => Err e
  end.

Notation "'do' x <- m ; k" := (res_bind m (fun x => k))
  (at level 10, x name, m at level 100, k at level 200).
Notation "'do' ' p <- m ; k" := (res_bind m (fun x => let 'p := x in k))
  (at level 10, p pattern, m at level 100, k at level 200).

(** ** Primitive operations of the language *)

(** [!!v] *)
Definition to_boolean (v : jsval) : bool :=
  match v with
  | VUndefined | VNull => false
  | VBool b => b
  | VNum n => negb (n =? 0)
  | VStr s => negb (String.eqb s "")
  | _ => true
  end.

(** [v == null] *)
Definition is_nullish (v : jsval) : bool :=
  match v with
  | VUndefined | VNull => true
  | _ => false
  end.

(** [typeof v == 'function'] and [typeof v == 'number'] *)
Definition is_function (v : jsval) : bool :=
  match v with VFun _ => true | _ => false end.

Definition is_number (v : jsval) : bool :=
  match v with VNum _ => true | _ => false end.

(** [Array.isArray(v)] *)
Definition is_array (v : jsval) : bool :=
  match v with VArr _ => true | _ => false end.

(** [a === b].  The modelled code only compares against primitives and
    function references; two arrays or two objects, whose identity the
    value model does not record, compare as distinct. *)
Definition strict_eq (a b : jsval) : bool :=
  match a, b with
  | VUndefined, VUndefined => true
  | VNull, VNull => true
  | VBool x, VBool y => Bool.eqb x y
  | VNum x, VNum y => x =? y
  | VStr x, VStr y => String.eqb x y
  | VFun f, VFun g => bool_decide (f = g)
  | _, _ => false
  end.

(** The canonical decimal numeral of a natural number, and the property
    keys that are array indices (canonical numerals below 2^32 - 1). *)
Definition dec (n : nat) : string :=
  NilEmpty.string_of_uint (Nat.to_uint n).

Definition array_index (k : string) : option N :=
  match NilEmpty.uint_of_string k with
  | Some u =>
      let n := N.of_uint u in
      if String.eqb (NilEmpty.string_of_uint (N.to_uint n)) k
         && (n <? 4294967295)%N
      then Some n else None
  | None => None
  end.

Fixpoint lookup_prop {A} (k : string) (ps : list (string * A)) : option A :=
  match ps with
  | [] => None
  | (k', v) :: ps' => if String.eqb k k' then Some v else lookup_prop k ps'
  end.

(** The methods that a plain object inherits from [Object.prototype], with
    the number of parameters of each. *)
Definition object_prototype_methods : list (string * nat) :=
  [("__defineGetter__", 2%nat); ("__defineSetter__", 2%nat);
   ("hasOwnProperty", 1%nat); ("__lookupGetter__", 1%nat);
   ("__lookupSetter__", 1%nat); ("isPrototypeOf", 1%nat);
   ("propertyIsEnumerable", 1%nat); ("toString", 0%nat);
   ("valueOf", 0%nat); ("toLocaleString", 0%nat)].

(** [f.name] *)
Definition fn_name (f : funref) : string :=
  match f with
  | FObject => "Object"
  | FFunction => "Function"
  | FArray => "Array"
  | FString => "String"
  | FNumber => "Number"
  | FBoolean => "Boolean"
  | FDate => "Date"
  | FRegExp => "RegExp"
  | FObjectMethod name => name
  | FUser name _ _ => name
  end.

(** [f.length] *)
Definition fn_length (f : funref) : nat :=
  match f with
  | FObject | FFunction | FArray | FString | FNumber | FBoolean => 1
  | FDate => 7
  | FRegExp => 2
  | FObjectMethod name => default 0%nat (lookup_prop name object_prototype_methods)
  | FUser _ _ params => params
  end.

(** [v.constructor]: an own property of that name if the object has one,
    else the constructor of its class. *)
Definition constructor_of (v : jsval) : jsval :=
  match v with
  | VUndefined | VNull => VUndefined
  | VBool _ => VFun FBoolean
  | VNum _ => VFun FNumber
  | VStr _ => VFun FString
  | VFun _ => VFun FFunction
  | VDate _ => VFun FDate
  | VRegExp _ => VFun FRegExp
  | VArr _ => VFun FArray
  | VObj c ps =>
      match lookup_prop "constructor" ps with
      | Some w => w
      | None => VFun c
      end
  end.

(** [v[k]] for a string key [k], on a value other than null and undefined:
    the [constructor], the [length] of a string, of an array or of a
    function, the [name] of a function, an element of an array, an own
    property of an object. *)
Definition get_prop (v : jsval) (k : string) : jsval :=
  if String.eqb k "constructor" then constructor_of v else
  match v with
  | VStr s =>
      if String.eqb k "length" then VNum (Z.of_nat (String.length s))
      else VUndefined
  | VFun f =>
      if String.eqb k "length" then VNum (Z.of_nat (fn_length f))
      else if String.eqb k "name" then VStr (fn_name f)
      else VUndefined
  | VArr xs =>
      if String.eqb k "length" then VNum (Z.of_nat (List.length xs))
      else match array_index k with
           | Some i => nth (N.to_nat i) xs VUndefined
           | None => VUndefined
           end
  | VObj _ ps =>
      match lookup_prop k ps with
      | Some w => w
      | None => VUndefined
      end
  | _ => VUndefined
  end.

(** [const { min, max } = v] fails on null and undefined. *)
Definition destructure_min_max (v : jsval) : res (jsval * jsval) :=
  if is_nullish v then Err TypeError
  else Ok (get_prop v "min", get_prop v "max").

(** ToNumber on the primitives whose conversion is modelled; [None] is NaN. *)
Definition to_number (v : jsval) : res (option Z) :=
  match v with
  | VUndefined => Ok None
  | VNull => Ok (Some 0)
  | VBool b => Ok (Some (if b then 1 else 0))
  | VNum n => Ok (Some n)
  | _ => Err OutOfModel
  end.

(** [a < b]: two strings are compared by code unit, anything else
    numerically, a NaN on either side making the comparison false. *)
Definition js_lt (a b : jsval) : res bool :=
  match a, b with
  | VStr s, VStr t => Ok (String.ltb s t)
  | _, _ =>
      do x <- to_number a;
      do y <- to_number b;
      Ok match x, y with
         | Some m, Some n => m <? n
         | _, _ => false
         end
  end.

(** [a > b] *)
Definition js_gt (a b : jsval) : res bool := js_lt b a.

(** Modelled from the spec: the [typeOf] function of the component-type
    package, which the validators and [walk] import ("structural type
    name").  Arrays, dates and regular expressions are recognised by their
    class, an object whose [nodeType] is 1 is an element, everything else is
    named by [typeof]. *)
Definition typeOf (v : jsval) : string :=
  match v with
  | VUndefined => "undefined"
  | VNull => "null"
  | VBool _ => "boolean"
  | VNum _ => "number"
  | VStr _ => "string"
  | VFun _ => "function"
  | VDate _ => "date"
  | VRegExp _ => "regexp"
  | VArr _ => "array"
  | VObj _ ps =>
      if strict_eq (get_prop v "nodeType") (VNum 1) then "element"
      else "object"
  end.

(** ** Built-in validators (src/validators.js) *)

Module Validators.

(** [required(value, ctx, required)] *)
Definition required (value ctx required : jsval) : bool :=
  if strict_eq required (VBool false) then true
  else negb (is_nullish value) && negb (strict_eq value (VStr "")).

(** [type(value, ctx, name)] *)
Definition type (value ctx name : jsval) : bool :=
  if is_nullish value then true
  else if is_function name then strict_eq (constructor_of value) name
  else strict_eq (VStr (typeOf value)) name.

(** [length(value, ctx, len)] *)
Definition length (value ctx len : jsval) : res bool :=
  if is_nullish value then Ok true
  else if is_number len then Ok (strict_eq (get_prop value "length") len)
  else
    do '(min, max) <- destructure_min_max len;
    do below <- (if to_boolean min then js_lt (get_prop value "length") min
                else Ok false);
    if below then Ok false else
    do above <- (if to_boolean max then js_gt (get_prop value "length") max
                else Ok false);
    if above then Ok false else
    Ok true.

(** [parseInt(x) != null]: [parseInt] returns a Number whatever it is given
    (NaN when nothing parses), and no Number is loosely equal to [null]. *)
Definition parseInt_neq_null (x : jsval) : bool := true.

(** [size(value, ctx, size)] *)
Definition size (value ctx size : jsval) : res bool :=
  if is_nullish value then Ok true
  else if is_number size then Ok (strict_eq value size)
  else
    do '(min, max) <- destructure_min_max size;
    do below <- (if parseInt_neq_null min then js_lt value min else Ok false);
    if below then Ok false else
    do above <- (if parseInt_neq_null max then js_gt value max else Ok false);
    if above then Ok false else
    Ok true.

(** [enums.includes(value)] for an array [enums].  A primitive or a function
    is found when an element is strictly equal to it; whether an array, an
    object, a date or a regular expression is found depends on its
    identity, which values do not record.  A string has an [includes] of
    its own (a substring test), which is not modelled; any other value has
    no [includes]. *)
Definition has_identity (v : jsval) : bool :=
  match v with
  | VDate _ | VRegExp _ | VArr _ | VObj _ _ => true
  | _ => false
  end.

Definition includes (enums value : jsval) : res bool :=
  match enums with
  | VArr xs =>
      if has_identity value then Err OutOfModel
      else Ok (existsb (strict_eq value) xs)
  | VStr _ | VObj _ _ => Err OutOfModel
  | _ => Err TypeError
  end.

(** [enum(value, ctx, enums)] *)
Definition enum (value ctx enums : jsval) : res bool :=
  if is_nullish value then Ok true
  else includes enums value.

(** [match(value, ctx, regexp)].  The matching of a regular expression
    against a value, [regexp.test(value)], belongs to the language and is
    a parameter; only a regular expression has a [test]. *)
Definition match_ (test : string -> jsval -> res bool)
  (value ctx regexp : jsval) : res bool :=
  if is_nullish value then Ok true
  else match regexp with
       | VRegExp src => test src value
       | VObj _ _ => Err OutOfModel
       | _ => Err TypeError
       end.

End Validators.

(** ** Path utilities (src/utils.js) *)

(** The path arguments that [join], [enumerate] and [walk] pass around are
    absent, an array index, or a string. *)
Inductive acc : Type :=
| AUndef
| ANum (n : nat)
| AStr (s : string).

(** Truthiness of an accumulator: [undefined], [0] and [''] are falsy. *)
Definition acc_truthy (a : acc) : bool :=
  match a with
  | AUndef => false
  | ANum n => negb (n =? 0)%nat
  | AStr s => negb (String.eqb s "")
  end.

(** What a template literal or string concatenation makes of it. *)
Definition acc_str (a : acc) : string :=
  match a with
  | AUndef => "undefined"
  | ANum n => dec n
  | AStr s => s
  end.

(** [join(path, prefix)] *)
Definition join (path prefix : acc) : acc :=
  if acc_truthy prefix
  then AStr (acc_str prefix ++ "." ++ acc_str path)
  else path.

(** [path.split(/\.\$(?=\.|$)/)]: the separator is a dot and a dollar that
    are followed by a dot or by the end of the string.  The string is
    scanned from the left; a character that does not start a separator
    goes to the part being read. *)
Definition lookahead (rest : string) : bool :=
  match rest with
  | EmptyString => true
  | String c _ => Ascii.eqb c "."
  end.

Definition push_char (c : ascii) (parts : list string) : list string :=
  match parts with
  | [] => [String c EmptyString]
  | p :: ps => String c p :: ps
  end.

Fixpoint split_wildcard (s : string) : list string :=
  match s with
  | EmptyString => [EmptyString]
  | String c s' =>
      match s' with
      | String d rest =>
          if Ascii.eqb c "." && Ascii.eqb d "$" && lookahead rest
          then EmptyString :: split_wildcard rest
          else push_char c (split_wildcard s')
      | EmptyString => push_char c (split_wildcard s')
      end
  end.

(** The segments of a path, [path.split('.')], and the number of wildcard
    segments of a path: the segments after the first that are a dollar
    sign. *)
Fixpoint split_dots (s : string) : list string :=
  match s with
  | EmptyString => [EmptyString]
  | String c s' =>
      if Ascii.eqb c "." then EmptyString :: split_dots s'
      else push_char c (split_dots s')
  end.

Fixpoint count_wild (segs : list string) : nat :=
  match segs with
  | [] => 0
  | seg :: segs' => ((if String.eqb seg "$" then 1 else 0) + count_wild segs')%nat
  end.

Definition wildcards (path : string) : nat :=
  count_wild (tl (split_dots path)).

(** [parts.join(sep)] *)
Fixpoint join_with (sep : string) (parts : list string) : string :=
  match parts with
  | [] => ""
  | [p] => p
  | p :: ps => (p ++ sep ++ join_with sep ps)%string
  end.

(** Occurrences of the dollar sign, the measure along which [enumerate]
    recurses. *)
Fixpoint dollars (s : string) : nat :=
  match s with
  | EmptyString => 0
  | String c s' => ((if Ascii.eqb c "$" then 1 else 0) + dollars s')%nat
  end.

Section Enumerate.

(** [dot.get(obj, path)] of the @eivifj/dot package, which is not part of
    the repository: any function from an object and a dotted path to the
    value found there. *)
Variable dot_get : jsval -> string -> jsval.

(** [enumerate(path, obj, callback)], as the list of the calls
    [callback(p, v)] it makes, in order.  The object is not modified
    while it is enumerated. *)
Fixpoint enumerate_fuel (fuel : nat) (path : string) (obj : jsval)
  : list (string * jsval) :=
  match fuel with
  | O => []
  | S fuel' =>
      match split_wildcard path with
      | [] => []
      | first :: parts =>
          let arr := dot_get obj first in
          match parts with
          | [] => [(first, arr)]
          | _ :: _ =>
              match arr with
              | VArr xs =>
                  flat_map
                    (fun i =>
                       let current := join (ANum i) (AStr first) in
                       let next := (acc_str current ++ join_with ".$" parts)%string in
                       enumerate_fuel fuel' next obj)
                    (seq 0 (List.length xs))
              | _ => []
              end
          end
      end
  end.

Definition enumerate (path : string) (obj : jsval) : list (string * jsval) :=
  enumerate_fuel (S (dollars path)) path obj.

End Enumerate.

Section Walk.

(** The callback of [walk] may keep state of its own: it is a function
    from the two paths and the state before to its answer and the state
    after. *)
Context {St : Type}.
Variable callback : acc -> acc -> St -> bool * St.

(** [walk(obj, callback, path, prop)] *)
Fixpoint walk (obj : jsval) (path prop : acc) (st : St) {struct obj} : St :=
  if String.eqb (typeOf obj) "array" then
    match obj with
    | VArr xs =>
        (fix forEach (xs : list jsval) (i : nat) (st : St) {struct xs} : St :=
           match xs with
           | [] => st
           | v :: xs' =>
               forEach xs' (S i)
                 (walk v (join (ANum i) path) (join (AStr "$") prop) st)
           end) xs O st
    | _ => st
    end
  else if negb (String.eqb (typeOf obj) "object") then st
  else
    match obj with
    | VObj _ ps =>
        (fix entries (ps : list (string * jsval)) (st : St) {struct ps} : St :=
           match ps with
           | [] => st
           | (key, val) :: ps' =>
               let newPath := join (AStr key) path in
               let newProp := join (AStr key) prop in
               let '(go, st1) := callback newPath newProp st in
               entries ps' (if go then walk val newPath newProp st1 else st1)
           end) ps st
    | _ => st
    end.

(** What [walk] does with one element of an array and with one entry of an
    object. *)
Definition walk_element (path prop : acc) (st : St) (iv : nat * jsval) : St :=
  walk iv.2 (join (ANum iv.1) path) (join (AStr "$") prop) st.

Definition walk_entry (path prop : acc) (st : St) (kv : string * jsval) : St :=
  let newPath := join (AStr kv.1) path in
  let newProp := join (AStr kv.1) prop in
  let '(go, st1) := callback newPath newProp st in
  if go then walk kv.2 newPath newProp st1 else st1.

End Walk.

(** ** Plain objects *)

(** [Object.prototype], an object of class [Object] without enumerable
    properties, and what a plain object inherits from it under a name: the
    constructor [Object], the object itself under [__proto__], a method, or
    nothing. *)
Definition object_prototype : jsval := VObj FObject [].

Definition object_prototype_member (k : string) : jsval :=
  if String.eqb k "constructor" then VFun FObject
  else if String.eqb k "__proto__" then object_prototype
  else match lookup_prop k object_prototype_methods with
       | Some _ => VFun (FObjectMethod k)
       | None => VUndefined
       end.

(** The own properties of an object are kept in the order in which they
    were created, which is not the order in which [Object.keys] lists them
    (see [own_keys] below).  Writing an own property: an existing key keeps
    its place, a new key is added at the end. *)
Fixpoint own_put {A} (k : string) (v : A) (o : list (string * A))
  : list (string * A) :=
  match o with
  | [] => [(k, v)]
  | (k', v') :: o' =>
      if String.eqb k k' then (k, v) :: o' else (k', v') :: own_put k v o'
  end.

(** [o[k] = v] for a value [v] that is an object, on a plain object given
    by its own properties [o] and by the object [proto] that an earlier
    assignment has made its prototype, if any.  Under the name [__proto__],
    unless the object has an own property of that name, the assignment
    reaches the setter that the object inherits: [v] becomes the prototype
    of the object, and no property is created. *)
Definition obj_set {A} (k : string) (v : A) (o : list (string * A))
  (proto : option A) : list (string * A) * option A :=
  match lookup_prop k o with
  | Some _ => (own_put k v o, proto)
  | None =>
      if String.eqb k "__proto__" then (o, Some v)
      else (own_put k v o, proto)
  end.

(** [o[k]], when it is one of the objects that were assigned to [o]: an
    own property or, under the name [__proto__], the prototype that an
    assignment has installed. *)
Definition obj_get {A} (k : string) (o : list (string * A))
  (proto : option A) : option A :=
  match lookup_prop k o with
  | Some v => Some v
  | None => if String.eqb k "__proto__" then proto else None
  end.

(** [Object.keys(o)]: the keys that are array indices come first, in
    ascending numeric order, then the other keys in creation order. *)
Fixpoint insert_index (x : N * string) (l : list (N * string))
  : list (N * string) :=
  match l with
  | [] => [x]
  | y :: l' => if (fst x <=? fst y)%N then x :: l else y :: insert_index x l'
  end.

Fixpoint index_keys (ks : list string) : list (N * string) :=
  match ks with
  | [] => []
  | k :: ks' =>
      match array_index k with
      | Some n => insert_index (n, k) (index_keys ks')
      | None => index_keys ks'
      end
  end.

Fixpoint name_keys (ks : list string) : list string :=
  match ks with
  | [] => []
  | k :: ks' =>
      match array_index k with
      | Some _ => name_keys ks'
      | None => k :: name_keys ks'
      end
  end.

Definition own_keys {A} (o : list (string * A)) : list string :=
  map snd (index_keys (map fst o)) ++ name_keys (map fst o).

(** A registry written without order is a finite map from its own keys.
    Reading an own property: a missing key reads as [undefined]. *)
Definition tbl_get (m : gmap string jsval) (k : string) : jsval :=
  default VUndefined (m !! k).

(** [m[k]] on a plain object: an own property, else what the object
    inherits from [Object.prototype]. *)
Definition plain_get (m : gmap string jsval) (k : string) : jsval :=
  match m !! k with
  | Some v => v
  | None => object_prototype_member k
  end.

(** [typeof v] is ['object'] or ['function'], or [v] is null: the values
    that the setter of [__proto__] accepts. *)
Definition is_object_or_null (v : jsval) : bool :=
  match v with
  | VNull | VFun _ | VDate _ | VRegExp _ | VArr _ | VObj _ _ => true
  | _ => false
  end.

(** [m[k] = v] on a plain object.  Under the name [__proto__], unless the
    object has an own property of that name, the assignment reaches the
    inherited setter: it is ignored when [v] is a primitive value, and
    replaces the prototype of the object when [v] is an object or null,
    after which what the object inherits is not modelled. *)
Definition plain_set (k : string) (v : jsval) (m : gmap string jsval)
  : res (gmap string jsval) :=
  match m !! k with
  | Some _ => Ok (<[k := v]> m)
  | None =>
      if String.eqb k "__proto__"
      then (if is_object_or_null v then Err OutOfModel else Ok m)
      else Ok (<[k := v]> m)
  end.

(** The assignments [m[k] = v] for the entries [(k, v)] of a list, in
    turn. *)
Definition plain_set_all (entries : list (string * jsval))
  (m : gmap string jsval) : res (gmap string jsval) :=
  foldl (fun acc kv => do o <- acc; plain_set kv.1 kv.2 o) (Ok m) entries.

(** [a || b] *)
Definition js_or (a b : jsval) : jsval :=
  if to_boolean a then a else b.

(** [s.toLowerCase()] on ASCII text. *)
Definition lower_ascii (c : ascii) : ascii :=
  let n := nat_of_ascii c in
  if (65 <=? n)%nat && (n <=? 90)%nat then ascii_of_nat (n + 32) else c.

Fixpoint toLowerCase (s : string) : string :=
  match s with
  | EmptyString => EmptyString
  | String c s' => String (lower_ascii c) (toLowerCase s')
  end.

(** ** Assignment into a registry (src/utils.js) *)

(** [Object.keys(key)] with the values under the keys, for the values
    whose own enumerable properties are modelled. *)
Definition own_entries (v : jsval) : res (list (string * jsval)) :=
  match v with
  | VUndefined | VNull => Err TypeError
  | VObj _ ps => Ok (map (fun k => (k, get_prop v k)) (map fst ps))
  | VArr xs => Ok (imap (fun i x => (dec i, x)) xs)
  | VStr _ => Err OutOfModel
  | _ => Ok []
  end.

(** [assign(key, val, obj)] on a plain object [obj]: one assignment when
    the key is a string, one assignment per own property of the key
    otherwise. *)
Definition assign (key val : jsval) (obj : gmap string jsval)
  : res (gmap string jsval) :=
  match key with
  | VStr k => plain_set k val obj
  | _ =>
      do entries <- own_entries key;
      plain_set_all entries obj
  end.

(** ** Default error messages (src/messages.js) *)

(** What a template literal makes of a value, on the values whose
    conversion to a string is modelled. *)
Definition display (v : jsval) : res string :=
  match v with
  | VUndefined => Ok "undefined"
  | VNull => Ok "null"
  | VBool b => Ok (if b then "true" else "false")
  | VNum n => Ok (NilEmpty.string_of_int (Z.to_int n))
  | VStr s => Ok s
  | _ => Err OutOfModel
  end.

(** [xs.join(sep)]: null and undefined elements give the empty string. *)
Fixpoint display_join (sep : string) (xs : list jsval) : res string :=
  match xs with
  | [] => Ok ""
  | x :: xs' =>
      do s <- (if is_nullish x then Ok "" else display x);
      match xs' with
      | [] => Ok s
      | _ :: _ => do t <- display_join sep xs'; Ok (s ++ sep ++ t)%string
      end
  end.

Module Messages.

(** [type(prop, ctx, type)] *)
Definition type (prop ctx type : jsval) : res jsval :=
  let type := match type with VFun f => VStr (fn_name f) | _ => type end in
  do p <- display prop;
  do t <- display type;
  Ok (VStr (p ++ " должно быть по типу " ++ t ++ ".")).

(** [required(prop)] *)
Definition required (prop : jsval) : res jsval :=
  do p <- display prop;
  Ok (VStr (p ++ " обязательный параметр.")).

(** [match(prop, ctx, regexp)] *)
Definition match_ (prop ctx regexp : jsval) : res jsval :=
  do p <- display prop;
  do r <- (match regexp with
           | VRegExp src => Ok ("/" ++ src ++ "/")%string
           | _ => display regexp
           end);
  Ok (VStr (p ++ " должен соответствовать " ++ r ++ ".")).

(** [length(prop, ctx, len)] *)
Definition length (prop ctx len : jsval) : res jsval :=
  if is_number len then
    do p <- display prop;
    do n <- display len;
    Ok (VStr (p ++ " должен иметь длину " ++ n ++ "."))
  else
    do '(min, max) <- destructure_min_max len;
    if to_boolean min && to_boolean max then
      do p <- display prop;
      do lo <- display min;
      do hi <- display max;
      Ok (VStr (p ++ " должен иметь длину между " ++ lo ++ " и " ++ hi ++ "."))
    else if to_boolean max then
      do p <- display prop;
      do hi <- display max;
      Ok (VStr (p ++ " должен иметь максимальную длину " ++ hi ++ "."))
    else if to_boolean min then
      do p <- display prop;
      do lo <- display min;
      Ok (VStr (p ++ " должен иметь минимальную длину " ++ lo ++ "."))
    else Ok VUndefined.

(** [size(prop, ctx, size)] *)
Definition size (prop ctx size : jsval) : res jsval :=
  if is_number size then
    do p <- display prop;
    do n <- display size;
    Ok (VStr (p ++ " должен иметь размер " ++ n ++ "."))
  else
    do '(min, max) <- destructure_min_max size;
    if negb (strict_eq min VUndefined) && negb (strict_eq max VUndefined) then
      do p <- display prop;
      do lo <- display min;
      do hi <- display max;
      Ok (VStr (p ++ " должно быть между " ++ lo ++ " и " ++ hi ++ "."))
    else if negb (strict_eq max VUndefined) then
      do p <- display prop;
      do hi <- display max;
      Ok (VStr (p ++ " должно быть меньше чем " ++ hi ++ "."))
    else if negb (strict_eq min VUndefined) then
      do p <- display prop;
      do lo <- display min;
      Ok (VStr (p ++ " должно быть больше чем " ++ lo ++ "."))
    else Ok VUndefined.

(** [enum(prop, ctx, enums)]: the list is copied, its last element taken
    off the copy, and the others joined with commas. *)
Definition enum (prop ctx enums : jsval) : res jsval :=
  match enums with
  | VArr xs =>
      let copy := removelast xs in
      let last := List.last xs VUndefined in
      do p <- display prop;
      do others <- display_join ", " copy;
      do l <- display last;
      Ok (VStr (p ++ " должно быть либо " ++ others ++ " или " ++ l ++ "."))
  | VObj _ _ => Err OutOfModel
  | _ => Err TypeError
  end.

(** [illegal(prop)] *)
Definition illegal (prop : jsval) : res jsval :=
  do p <- display prop;
  Ok (VStr (p ++ " не допускается.")).

(** [default(prop)] *)
Definition default_ (prop : jsval) : res jsval :=
  do p <- display prop;
  Ok (VStr ("Проверка не удалась для " ++ p ++ ".")).

End Messages.

(** ** The store of argument arrays *)

(** Arrays handed to [use] and the argument arrays held by the registry are
    objects with identity: the store maps a location to the current
    contents of the array that lives there. *)
Abbreviation loc := nat (only parsing).
Abbreviation store := (list (list jsval)) (only parsing).

Definition alloc (xs : list jsval) (σ : store) : loc * store :=
  (List.length σ, σ ++ [xs]).

Definition contents (σ : store) (a : loc) : list jsval :=
  default [] (σ !! a).

(** ** Schema tables and the Property class (src/property.js) *)

Module Schema.
(** Modelled from the spec: the Schema class is not among the sources.
    A property reads three registries of its owning schema, each a map
    from a name to a function or a string: the validators, the messages
    and the typecasters. *)
Record t : Type := mk {
  validators : gmap string jsval;
  messages : gmap string jsval;
  typecasters : gmap string jsval
}.
End Schema.

Module ValidationError.
(** Modelled from the spec: the ValidationError class is not among the
    sources; an error is the pair of a message and a concrete path. *)
Record t : Type := mk {
  message : jsval;
  path : string
}.
End ValidationError.

Module Property.

Record rule : Type := Rule {
  args : loc;
  fn : jsval
}.

(** A property: its name, its rule registry (the own properties of the
    registry, and the rule that a registration under the name [__proto__]
    has made the prototype of the registry, if any), its declared type and
    its messages.  The owning schema is an argument of the methods that
    read it. *)
Record t : Type := mk {
  name : string;
  registry : list (string * rule);
  registry_proto : option rule;
  _type : jsval;
  messages : gmap string jsval
}.

(** [new Property(name, schema)] *)
Definition new (name : string) : t :=
  {| name := name; registry := []; registry_proto := None;
     _type := VNull; messages := ∅ |}.

(** One invocation of a validator function, as [validate] makes it. *)
Record invocation : Type := mkInvocation {
  rule_name : string;
  callee : funref;
  arguments : list jsval
}.

(** An entry of the object given to [use]: an array that the caller holds,
    given by its location in the store, or any other value. *)
Inductive use_arg : Type :=
| UVal (v : jsval)
| UArr (a : loc).

(** [this.registry[type]], when it is a rule. *)
Definition registered (p : t) (type : string) : option rule :=
  obj_get type (registry p) (registry_proto p).

(** [_register(type, args, fn)] *)
Definition _register (type : string) (args : loc) (fn : jsval) (p : t)
  : t :=
  let o := obj_set type (Rule args fn) (registry p) (registry_proto p) in
  {| name := name p;
     registry := o.1;
     registry_proto := o.2;
     _type := _type p;
     messages := messages p |}.

(** A rule method called with a literal argument array [[x]]: the array is
    created afresh, then registered. *)
Definition register_fresh (type : string) (xs : list jsval)
  (ps : t * store) : t * store :=
  let '(p, σ) := ps in
  let '(a, σ') := alloc xs σ in
  (_register type a VUndefined p, σ').

(** [required(bool = true)] *)
Definition required (bool : jsval) (ps : t * store) : t * store :=
  let bool := if strict_eq bool VUndefined then VBool true else bool in
  register_fresh "required" [bool] ps.

(** [type(type)] *)
Definition type (type : jsval) (ps : t * store) : t * store :=
  let '(p, σ) := ps in
  let p' := {| name := name p; registry := registry p;
               registry_proto := registry_proto p;
               _type := type; messages := messages p |} in
  register_fresh "type" [type] (p', σ).

(** [length(rules)], [size(rules)], [enum(enums)], [match(regexp)] *)
Definition length (rules : jsval) := register_fresh "length" [rules].
Definition size (rules : jsval) := register_fresh "size" [rules].
Definition enum (enums : jsval) := register_fresh "enum" [enums].
Definition match_ (regexp : jsval) := register_fresh "match" [regexp].

(** [Array.isArray(arr) ? arr : [arr]], as the elements of the array. *)
Definition as_array (v : jsval) : list jsval :=
  match v with
  | VArr xs => xs
  | _ => [v]
  end.

(** The body of the loop of [use], for one name: wrap a value that is not an
    array into a new one-element array, take the first element off the
    array with [shift], and register the array under the name.  An array
    that comes as a value, without a location, is one that nothing else
    holds: it gets a location of its own. *)
Definition use_entry (name : string) (arr : use_arg) (ps : t * store)
  : t * store :=
  let '(p, σ) := ps in
  let '(a, σ1) := match arr with
                  | UArr a => (a, σ)
                  | UVal v => alloc (as_array v) σ
                  end in
  let xs := contents σ1 a in
  let fn := hd VUndefined xs in
  let σ2 := <[a := tl xs]> σ1 in
  (_register name a fn p, σ2).

(** The callback of the loop of [use]: the entry under the name is looked
    up and handled as above. *)
Definition use_step (fns : list (string * use_arg)) (ps : t * store)
  (name : string) : t * store :=
  match lookup_prop name fns with
  | Some arr => use_entry name arr ps
  | None => ps
  end.

(** [use(fns)] *)
Definition use (fns : list (string * use_arg)) (ps : t * store)
  : t * store :=
  foldl (use_step fns) ps (own_keys fns).

(** [message(messages)]: a string stands for [{default: messages}]; the
    entries of the object are assigned to the messages in turn. *)
Definition message (msgs : jsval) (p : t) : res t :=
  do entries <-
    match msgs with
    | VStr _ => Ok [("default", msgs)]
    | _ => own_entries msgs
    end;
  do m <- plain_set_all entries (messages p);
  Ok {| name := name p; registry := registry p;
        registry_proto := registry_proto p; _type := _type p;
        messages := m |}.

Section WithCall.

(** What calling a function object with a list of arguments returns:
    functions are taken to be deterministic and free of effects on the
    property, the schema and the store. *)
Variable call : funref -> list jsval -> res jsval.

(** The message chosen by [_error], before a generator is applied.  The
    messages of the property are a plain object; the messages of the schema
    are read as the table that the schema holds. *)
Definition resolve_message (p : t) (schema : Schema.t) (type : string)
  : jsval :=
  js_or (plain_get (messages p) type)
    (js_or (plain_get (messages p) "default")
       (js_or (tbl_get (Schema.messages schema) type)
          (tbl_get (Schema.messages schema) "default"))).

(** The reading of [_error] in which only the messages that have been
    registered on the property are looked at. *)
Definition resolve_registered_message (p : t) (schema : Schema.t)
  (type : string) : jsval :=
  js_or (tbl_get (messages p) type)
    (js_or (tbl_get (messages p) "default")
       (js_or (tbl_get (Schema.messages schema) type)
          (tbl_get (Schema.messages schema) "default"))).

(** [_error(type, ctx, args, path)] *)
Definition _error (p : t) (schema : Schema.t) (type : string)
  (ctx : jsval) (args : list jsval) (path : string) : res ValidationError.t :=
  let message := resolve_message p schema type in
  do message <-
    match message with
    | VFun f => call f (VStr path :: ctx :: args)
    | _ => Ok message
    end;
  Ok (ValidationError.mk message path).

(** What [this.registry[type]] finds when [type] names no rule: a member
    of the rule that was made the prototype of the registry (its array of
    arguments, as the array is at the time, or its function), else a
    member of [Object.prototype]. *)
Definition inherited_by_registry (p : t) (σ : store) (type : string)
  : jsval :=
  match registry_proto p with
  | Some r =>
      if String.eqb type "args" then VArr (contents σ (args r))
      else if String.eqb type "fn" then fn r
      else object_prototype_member type
  | None => object_prototype_member type
  end.

(** The part of [_run] that follows the destructuring: the validator is
    picked and called, and an error is made when it returns a falsy
    value. *)
Definition run_rule (p : t) (schema : Schema.t) (type : string)
  (value ctx : jsval) (path : string) (args : list jsval) (fn : jsval)
  : list invocation * res (option ValidationError.t) :=
  let validator := js_or fn (tbl_get (Schema.validators schema) type) in
  match validator with
  | VFun f =>
      let actuals := value :: ctx :: args ++ [VStr path] in
      ([mkInvocation type f actuals],
       do valid <- call f actuals;
       if negb (to_boolean valid)
       then do e <- _error p schema type ctx args path; Ok (Some e)
       else Ok None)
  | _ => ([], Err TypeError)
  end.

(** [_run(type, value, ctx, path)], with the validator invocations it
    makes.  When [this.registry[type]] is not a rule but some other truthy
    value, its [args] are spread all the same: that throws unless they are
    an array (the characters of a string are not followed). *)
Definition _run (p : t) (schema : Schema.t) (σ : store)
  (type : string) (value ctx : jsval) (path : string)
  : list invocation * res (option ValidationError.t) :=
  match registered p type with
  | Some r => run_rule p schema type value ctx path (contents σ (args r)) (fn r)
  | None =>
      let found := inherited_by_registry p σ type in
      if negb (to_boolean found) then ([], Ok None)
      else match get_prop found "args" with
           | VArr xs =>
               run_rule p schema type value ctx path xs (get_prop found "fn")
           | VStr _ => ([], Err OutOfModel)
           | _ => ([], Err TypeError)
           end
  end.

(** The loop of [validate] over the rule names. *)
Fixpoint run_rules (p : t) (schema : Schema.t) (σ : store)
  (types : list string) (value ctx : jsval) (path : string)
  : list invocation * res (option ValidationError.t) :=
  match types with
  | [] => ([], Ok None)
  | type :: types' =>
      let '(calls, err) := _run p schema σ type value ctx path in
      match err with
      | Ok None =>
          let '(calls', r) := run_rules p schema σ types' value ctx path in
          (calls ++ calls', r)
      | _ => (calls, err)
      end
  end.

(** [validate(value, ctx, path = this.name)] *)
Definition validate (p : t) (schema : Schema.t) (σ : store)
  (value ctx : jsval) (path : option string)
  : list invocation * res (option ValidationError.t) :=
  let path := default (name p) path in
  let types := own_keys (registry p) in
  run_rules p schema σ types value ctx path.

(** The canonical name of a declared type: [type.name] for a function,
    the string itself otherwise.  Only functions and strings are named
    here; any other truthy value would be turned into a property key. *)
Definition type_name (type : jsval) : res string :=
  match type with
  | VFun f => Ok (fn_name f)
  | VStr s => Ok s
  | _ => Err OutOfModel
  end.

(** [typecast(value)] *)
Definition typecast (p : t) (schema : Schema.t) (value : jsval)
  : res jsval :=
  let type := _type p in
  if negb (to_boolean type) then Ok value else
  do type <- type_name type;
  let cast := js_or (tbl_get (Schema.typecasters schema) type)
                (tbl_get (Schema.typecasters schema) (toLowerCase type)) in
  match cast with
  | VFun f => call f [value]
  | _ => Err (UnknownType type)
  end.

(** The validator that [_run] picks for a registered rule, the actual
    arguments it passes, and the resulting invocation. *)
Definition validator_of (schema : Schema.t) (type : string) (r : rule)
  : jsval :=
  js_or (fn r) (tbl_get (Schema.validators schema) type).

Definition actuals (σ : store) (r : rule) (value ctx : jsval)
  (path : string) : list jsval :=
  value :: ctx :: contents σ (args r) ++ [VStr path].

Definition invocation_of (schema : Schema.t) (σ : store)
  (value ctx : jsval) (path : string) (kr : string * rule)
  : option invocation :=
  match validator_of schema kr.1 kr.2 with
  | VFun f => Some (mkInvocation kr.1 f (actuals σ kr.2 value ctx path))
  | _ => None
  end.

(** A registered rule passes when its validator is a function that
    returns a truthy value, and fails when it returns a falsy one. *)
Definition rule_passes (schema : Schema.t) (σ : store)
  (value ctx : jsval) (path : string) (kr : string * rule) : Prop :=
  exists f w,
    validator_of schema kr.1 kr.2 = VFun f /\
    call f (actuals σ kr.2 value ctx path) = Ok w /\
    to_boolean w = true.

Definition rule_fails (schema : Schema.t) (σ : store)
  (value ctx : jsval) (path : string) (kr : string * rule) : Prop :=
  exists f w,
    validator_of schema kr.1 kr.2 = VFun f /\
    call f (actuals σ kr.2 value ctx path) = Ok w /\
    to_boolean w = false.

(** The reading of [validate] in which the rules are visited in the
    order in which their names were first registered. *)
Definition validate_in_registration_order (p : t)
  (schema : Schema.t) (σ : store) (value ctx : jsval)
  (path : option string)
  : list invocation * res (option ValidationError.t) :=
  run_rules p schema σ (map fst (registry p)) value ctx
    (default (name p) path).

End WithCall.

(** [string()], [number()], [array()], [date()].  The methods [schema],
    [each], [elements], [properties] and [path], which only hand their
    arguments to the owning schema, are not modelled. *)
Definition number := type (VFun FNumber).
Definition array := type (VFun FArray).
Definition date := type (VFun FDate).
Definition string := type (VFun FString).

End Property.

(** ** Vocabulary of the statements *)

(** The argument object [{min, max}] of [length] and [size], either bound
    being optional. *)
Definition bound (key : string) (b : option Z) : list (string * jsval) :=
  match b with
  | Some n => [(key, VNum n)]
  | None => []
  end.

Definition range_arg (min max : option Z) : jsval :=
  VObj FObject (bound "min" min ++ bound "max" max).

(** [min <= n <= max], an absent bound imposing nothing. *)
Definition within (min max : option Z) (n : Z) : bool :=
  match min with Some lo => lo <=? n | None => true end
  && match max with Some hi => n <=? hi | None => true end.

(** The bound that [length] enforces: it tests a bound for truthiness
    before comparing, which drops a bound of 0. *)
Definition enforced (b : option Z) : option Z :=
  match b with
  | Some 0 => None
  | _ => b
  end.

(** The chaining calls that register a rule, with the name of the rule
    that each registers. *)
Inductive chain_call : Type :=
| CallRequired (bool : jsval)
| CallType (type : jsval)
| CallLength (rules : jsval)
| CallSize (rules : jsval)
| CallEnum (enums : jsval)
| CallMatch (regexp : jsval)
| CallUse (name : string) (arr : Property.use_arg).

Definition rule_of (c : chain_call) : string :=
  match c with
  | CallRequired _ => "required"
  | CallType _ => "type"
  | CallLength _ => "length"
  | CallSize _ => "size"
  | CallEnum _ => "enum"
  | CallMatch _ => "match"
  | CallUse name _ => name
  end.

Definition chain (c : chain_call) (ps : Property.t * store) : Property.t * store :=
  match c with
  | CallRequired b => Property.required b ps
  | CallType t => Property.type t ps
  | CallLength r => Property.length r ps
  | CallSize r => Property.size r ps
  | CallEnum e => Property.enum e ps
  | CallMatch re => Property.match_ re ps
  | CallUse name arr => Property.use [(name, arr)] ps
  end.

(** A behaviour for a few function objects, used to run the model on
    concrete inputs.  [Object.prototype.toString], called as a plain
    function, describes its receiver, which is undefined. *)
Definition sample_call (f : funref) (actuals : list jsval) : res jsval :=
  match f, actuals with
  | FUser "toText" _ _, [VNum n] => Ok (VStr (dec (Z.to_nat n)))
  | FUser "no" _ _, _ => Ok (VBool false)
  | FUser "yes" _ _, _ => Ok (VBool true)
  | FUser "required" _ _, value :: ctx :: required :: _ =>
      Ok (VBool (Validators.required value ctx required))
  | FUser "notAllowed" _ _, VStr path :: _ => Ok (VStr (path ++ " is not allowed"))
  | FObjectMethod "toString", _ => Ok (VStr "[object Undefined]")
  | _, _ => Err TypeError
  end.

(** A schema with the built-in [required] validator and a message for each
    of three rule names. *)
Definition sample_schema : Schema.t :=
  Schema.mk {[ "required" := VFun (FUser "required" 0 3) ]}
            (<[ "a" := VStr "a failed" ]>
               (<[ "0" := VStr "0 failed" ]>
                  {[ "required" := VStr "missing" ]}))
            ∅.

(** [new Property('x').use({a: no}).use({0: no})]: two rules that always
    fail, the one named [a] registered first. *)
Definition numbered_rules : Property.t * list (list jsval) :=
  Property.use [("0", Property.UVal (VFun (FUser "no" 0 2)))]
    (Property.use [("a", Property.UVal (VFun (FUser "no" 0 2)))]
       (Property.new "x", [])).

(** [new Property('username').required().use({binary: yes})] *)
Definition username_rules : Property.t * list (list jsval) :=
  Property.use [("binary", Property.UVal (VFun (FUser "yes" 0 2)))]
    (Property.required VUndefined (Property.new "username", [])).

(** [const bits = [yes, 32]] in the store, and [{bits}] given to [use]. *)
Definition bits_store : list (list jsval) := [[VFun (FUser "yes" 0 2); VNum 32]].
Definition bits_rules : list (string * Property.use_arg) :=
  [("bits", Property.UArr 0)].

(** [const both = [yes, 1, 2]] in the store, and [{a: both, b: both}] given
    to [use]: one array under two names. *)
Definition shared_store : list (list jsval) :=
  [[VFun (FUser "yes" 0 2); VNum 1; VNum 2]].
Definition shared_rules : list (string * Property.use_arg) :=
  [("a", Property.UArr 0); ("b", Property.UArr 0)].

(** A reading of [dot.get] that follows the dotted segments of the path
    through own properties, used to run [enumerate] on concrete inputs. *)
Definition sample_dot_get (obj : jsval) (path : string) : jsval :=
  foldl get_prop obj (split_dots path).

(** [{title: 'x', pets: [{name: 'a'}, {name: 'b'}]}] *)
Definition sample_object : jsval :=
  VObj FObject
    [("title", VStr "x");
     ("pets", VArr [VObj FObject [("name", VStr "a")];
                    VObj FObject [("name", VStr "b")]])].

(** A callback that records the pairs it is called with and lets the walk
    descend everywhere but under the property path [secret]. *)
Definition log_callback (path prop : acc) (st : list (acc * acc))
  : bool * list (acc * acc) :=
  (match prop with AStr "secret" => false | _ => true end,
   st ++ [(path, prop)]).

(** A callback that keeps the list of the pairs it is called with, and
    answers by a function [go] of the pair alone; the calls that [walk]
    makes to such a callback, in order. *)
Definition recording (go : acc -> acc -> bool) (path prop : acc)
  (st : list (acc * acc)) : bool * list (acc * acc) :=
  (go path prop, st ++ [(path, prop)]).

Definition walk_calls (go : acc -> acc -> bool) (obj : jsval)
  (path prop : acc) : list (acc * acc) :=
  walk (recording go) obj path prop [].

(** The nodes that a walk started on [root] comes to, with the path and
    the property name that it has there: the root; every element of an
    array that it comes to; and the value of an entry of an object that it
    comes to, when [go] answers true on the path and the property name of
    the entry. *)
Inductive walks_to (go : acc -> acc -> bool) (root : jsval)
  (path0 prop0 : acc) : jsval -> acc -> acc -> Prop :=
| walks_to_root : walks_to go root path0 prop0 root path0 prop0
| walks_to_element (xs : list jsval) (i : nat) (v : jsval) (path prop : acc) :
    walks_to go root path0 prop0 (VArr xs) path prop ->
    xs !! i = Some v ->
    walks_to go root path0 prop0 v
      (join (ANum i) path) (join (AStr "$") prop)
| walks_to_entry (c : funref) (ps : list (string * jsval)) (key : string)
    (val : jsval) (path prop : acc) :
    walks_to go root path0 prop0 (VObj c ps) path prop ->
    typeOf (VObj c ps) = "object" ->
    (key, val) ∈ ps ->
    go (join (AStr key) path) (join (AStr key) prop) = true ->
    walks_to go root path0 prop0 val
      (join (AStr key) path) (join (AStr key) prop).

(** The pairs on which the callback is to be called: the path and the
    property name of every entry of every object that the walk comes
    to. *)
Definition called_on (go : acc -> acc -> bool) (root : jsval)
  (path0 prop0 : acc) (pq : acc * acc) : Prop :=
  exists c ps path prop key val,
    walks_to go root path0 prop0 (VObj c ps) path prop
    /\ typeOf (VObj c ps) = "object"
    /\ (key, val) ∈ ps
    /\ pq = (join (AStr key) path, join (AStr key) prop).

(** The reading of [walk] in which the callback is called at every node
    that is visited, the elements of arrays included, and decides there
    whether the walk goes on below the node. *)
Fixpoint walk_calling_at_every_node (go : acc -> acc -> bool) (obj : jsval)
  (path prop : acc) {struct obj} : list (acc * acc) :=
  match obj with
  | VArr xs =>
      (fix elements (xs : list jsval) (i : nat) {struct xs} : list (acc * acc) :=
         match xs with
         | [] => []
         | v :: xs' =>
             let newPath := join (ANum i) path in
             let newProp := join (AStr "$") prop in
             ((newPath, newProp)
              :: (if go newPath newProp
                  then walk_calling_at_every_node go v newPath newProp
                  else []))
             ++ elements xs' (S i)
         end) xs O
  | VObj _ ps =>
      if String.eqb (typeOf obj) "object" then
        (fix entries (ps : list (string * jsval)) {struct ps} : list (acc * acc) :=
           match ps with
           | [] => []
           | (key, val) :: ps' =>
               let newPath := join (AStr key) path in
               let newProp := join (AStr key) prop in
               ((newPath, newProp)
                :: (if go newPath newProp
                    then walk_calling_at_every_node go val newPath newProp
                    else []))
               ++ entries ps'
           end) ps
      else []
  | _ => []
  end.

(** The answer that lets a walk go everywhere but under the property path
    [secret]. *)
Definition except_secret (path prop : acc) : bool :=
  match prop with AStr "secret" => false | _ => true end.

(** [[[{b: {c: 1}}]]] and [{a: [[{b: 1}]]}] *)
Definition nested_arrays : jsval :=
  VArr [VArr [VObj FObject [("b", VObj FObject [("c", VNum 1)])]]].

Definition arrays_in_object : jsval :=
  VObj FObject [("a", VArr [VArr [VObj FObject [("b", VNum 1)]]])].

(** [{tags: [{id: 1}, {id: 2}], secret: {key: 3}, n: 4}] *)
Definition walked_object : jsval :=
  VObj FObject
    [("tags", VArr [VObj FObject [("id", VNum 1)];
                    VObj FObject [("id", VNum 2)]]);
     ("secret", VObj FObject [("key", VNum 3)]);
     ("n", VNum 4)].

(** The names of a list, each once, in the order of their first
    occurrence; the names under which a sequence of chaining calls creates
    a key in the registry; and the order of two array indices. *)
Definition first_occurrences (l : list string) : list string :=
  reverse (remove_dups (reverse l)).

Definition created_keys (cs : list chain_call) : list string :=
  first_occurrences (filter (fun n => n <> "__proto__") (map rule_of cs)).

Definition index_lt (a b : string) : Prop :=
  match array_index a, array_index b with
  | Some m, Some n => (m < n)%N
  | _, _ => False
  end.

(** The values that [===] and [includes] compare by what they are: the
    primitives and the function references. *)
Definition has_identity_free (v : jsval) : Prop :=
  Validators.has_identity v = false.

(** A path and a property name are in step when both are non-empty strings
    with as many dotted segments, each segment of the path being the
    segment of the property name or, where that one is a dollar sign, an
    array index. *)
Definition seg_in_step (s t : string) : Prop :=
  s = t \/ (t = "$" /\ exists i, s = dec i).

Definition in_step (path prop : acc) : Prop :=
  exists p q,
    path = AStr p /\ prop = AStr q /\ p <> "" /\ q <> ""
    /\ Forall2 seg_in_step (split_dots p) (split_dots q).

(** The call of a built-in validator on a list of actual arguments: the
    parameters [value], [ctx] and the third one are bound by position, an
    argument that is not given being undefined, and the verdict comes back
    as a boolean. *)
Definition actual (i : nat) (actuals : list jsval) : jsval :=
  nth i actuals VUndefined.

Definition verdict (r : res bool) : res jsval :=
  do b <- r; Ok (VBool b).

Definition builtin_names : list string :=
  ["required"; "type"; "length"; "size"; "enum"; "match"].

Definition builtin_apply (test : string -> jsval -> res bool)
  (name : string) (actuals : list jsval) : res jsval :=
  let value := actual 0 actuals in
  let ctx := actual 1 actuals in
  let third := actual 2 actuals in
  if String.eqb name "required" then
    Ok (VBool (Validators.required value ctx third))
  else if String.eqb name "type" then
    Ok (VBool (Validators.type value ctx third))
  else if String.eqb name "length" then
    verdict (Validators.length value ctx third)
  else if String.eqb name "size" then
    verdict (Validators.size value ctx third)
  else if String.eqb name "enum" then
    verdict (Validators.enum value ctx third)
  else if String.eqb name "match" then
    verdict (Validators.match_ test value ctx third)
  else Err TypeError.

(** A schema whose validators of the six built-in names are the built-in
    functions (as a schema is when none of them has been replaced). *)
Definition runs_builtins (call : funref -> list jsval -> res jsval)
  (test : string -> jsval -> res bool) (schema : Schema.t) : Prop :=
  forall name, name ∈ builtin_names ->
    exists f, tbl_get (Schema.validators schema) name = VFun f
              /\ forall actuals, call f actuals = builtin_apply test name actuals.

(** The argument that a rule method registers. *)
Definition argument_of (c : chain_call) : jsval :=
  match c with
  | CallRequired b => if strict_eq b VUndefined then VBool true else b
  | CallType x | CallLength x | CallSize x | CallEnum x | CallMatch x => x
  | CallUse _ _ => VUndefined
  end.



(** A behaviour of function objects under which six references are the
    built-in validators, and a schema that holds them. *)
Definition builtin_ref (name : string) : funref := FUser name 100 3.

Definition builtins_call (f : funref) (actuals : list jsval) : res jsval :=
  match f with
  | FUser name 100 _ => builtin_apply (fun _ _ => Ok true) name actuals
  | _ => sample_call f actuals
  end.

Definition builtins_schema : Schema.t :=
  Schema.mk
    (list_to_map (map (fun n => (n, VFun (builtin_ref n))) builtin_names))
    {[ "required" := VStr "missing"; "default" := VStr "invalid" ]}
    ∅.

(** [new Property('email').type(String).length({min: 3}).required()] *)
Definition email_rules : Property.t * list (list jsval) :=
  Property.required VUndefined
    (Property.length (range_arg (Some 3) None)
       (Property.type (VFun FString) (Property.new "email", []))).

(** * Properties *)

(** ** Facts about the primitive operations *)

Lemma strict_eq_bool (v : jsval) (b : bool) :
  strict_eq v (VBool b) = true <-> v = VBool b.
Proof.
  destruct v; simpl; try (split; [discriminate | discriminate]).
  rewrite Bool.eqb_true_iff. split; [intros -> | intros [= ->]]; reflexivity.
Qed.

Lemma strict_eq_str (v : jsval) (s : string) :
  strict_eq v (VStr s) = true <-> v = VStr s.
Proof.
  destruct v; simpl; try (split; [discriminate | discriminate]).
  rewrite String.eqb_eq. split; [intros -> | intros [= ->]]; reflexivity.
Qed.

Lemma strict_eq_num (v : jsval) (n : Z) :
  strict_eq v (VNum n) = true <-> v = VNum n.
Proof.
  destruct v; simpl; try (split; [discriminate | discriminate]).
  rewrite Z.eqb_eq. split; [intros -> | intros [= ->]]; reflexivity.
Qed.

Lemma strict_eq_fun (v : jsval) (f : funref) :
  strict_eq v (VFun f) = true <-> v = VFun f.
Proof.
  destruct v; simpl; try (split; [discriminate | discriminate]).
  rewrite bool_decide_eq_true. split; [intros -> | intros [= ->]]; reflexivity.
Qed.

Lemma is_nullish_true (v : jsval) :
  is_nullish v = true <-> v = VUndefined \/ v = VNull.
Proof.
  destruct v; simpl; split; intros H; try discriminate; auto;
    destruct H; discriminate.
Qed.

(** ** The built-in validators *)

(** C2.  With the argument [true], [required] returns false exactly on
    [null], [undefined] and the empty string, and true on every other
    value; with the argument [false] it returns true on every value. *)
Theorem required_presence (v ctx : jsval) :
  (Validators.required v ctx (VBool true) = false
     <-> v = VNull \/ v = VUndefined \/ v = VStr "") /\
  (Validators.required v ctx (VBool true) = true
     <-> v <> VNull /\ v <> VUndefined /\ v <> VStr "") /\
  Validators.required v ctx (VBool false) = true.
Proof.
  unfold Validators.required; simpl.
  split; [| split]; [| | reflexivity].
  - destruct v; simpl; try (split; [discriminate | intros [|[|]]; discriminate]);
      try (split; auto; fail).
    destruct s; simpl; split; auto; try discriminate.
    intros [|[|]]; discriminate.
  - destruct v; simpl;
      try (split; [intros _; repeat split; discriminate | reflexivity]);
      try (split; [discriminate | intros (? & ? & ?); congruence]).
    destruct s; simpl.
    + split; [discriminate | intros (? & ? & ?); congruence].
    + split; [intros _; repeat split; discriminate | reflexivity].
Qed.

(** C3.  [type] passes on [null] and [undefined]; on any other value it
    passes exactly when the argument is a function that is the value's
    constructor, or a string that is the value's structural type name. *)
Theorem type_matches (v ctx T : jsval) :
  (is_nullish v = true -> Validators.type v ctx T = true) /\
  (is_nullish v = false ->
     (Validators.type v ctx T = true
        <-> (exists f, T = VFun f /\ constructor_of v = VFun f)
            \/ (exists s, T = VStr s /\ typeOf v = s))).
Proof.
  unfold Validators.type. split; intros Hn; rewrite Hn; [reflexivity |].
  destruct T as [| | b | n | s | f | t | src | xs | c ps]; simpl;
    try (rewrite strict_eq_fun; split;
         [intros H; left; eauto
         | intros [(g & [= <-] & H) | (s' & [=] & _)]; exact H]);
    try (rewrite String.eqb_eq; split;
         [intros H; right; eauto
         | intros [(g & [=] & _) | (s' & [= <-] & H)]; exact H]);
    try (split; [discriminate | intros [(g & [=] & _) | (s' & [=] & _)]]).
Qed.

Lemma type_matches_witness :
  Validators.type VNull VNull (VFun FString) = true
  /\ (Validators.type (VStr "abc") VNull (VFun FString) = true
      <-> (exists f, VFun FString = VFun f
                     /\ constructor_of (VStr "abc") = VFun f)
          \/ (exists s, VFun FString = VStr s /\ typeOf (VStr "abc") = s)).
Proof.
  split.
  - exact (proj1 (type_matches VNull VNull (VFun FString)) eq_refl).
  - exact (proj2 (type_matches (VStr "abc") VNull (VFun FString)) eq_refl).
Defined.


(** The length of a string or of an array, as [value.length] reads it. *)
Lemma length_of_string (s : string) :
  get_prop (VStr s) "length" = VNum (Z.of_nat (String.length s)).
Proof. reflexivity. Qed.

Lemma length_of_array (xs : list jsval) :
  get_prop (VArr xs) "length" = VNum (Z.of_nat (List.length xs)).
Proof. reflexivity. Qed.

Lemma range_arg_min (min max : option Z) :
  get_prop (range_arg min max) "min"
  = match min with Some lo => VNum lo | None => VUndefined end.
Proof. destruct min, max; reflexivity. Qed.

Lemma range_arg_max (min max : option Z) :
  get_prop (range_arg min max) "max"
  = match max with Some hi => VNum hi | None => VUndefined end.
Proof. destruct min, max; reflexivity. Qed.

(** [length] with an object of bounds, as it is written: a bound is
    inclusive, an omitted bound and a bound of 0 impose nothing. *)
Lemma length_bounds_enforced (v ctx : jsval) (n : Z) (min max : option Z) :
  is_nullish v = false ->
  get_prop v "length" = VNum n ->
  Validators.length v ctx (range_arg min max)
  = Ok (within (enforced min) (enforced max) n).
Proof.
  intros Hv Hlen. unfold Validators.length, destructure_min_max.
  rewrite Hv. cbn [is_number range_arg is_nullish res_bind].
  rewrite range_arg_min, range_arg_max, Hlen. unfold within, js_gt.
  destruct min as [lo|], max as [hi|]; cbn;
    repeat match goal with
    | |- context [?a =? 0] => destruct (Z.eqb_spec a 0); subst; cbn
    | |- context [?a <? ?b] => destruct (Z.ltb_spec a b); cbn
    | |- context [?a <=? ?b] => destruct (Z.leb_spec a b); cbn
    end; try reflexivity; try lia;
    repeat match goal with
    | |- context [match ?a with 0 => _ | _ => _ end] => destruct a; cbn
    | |- context [?a <=? ?b] => destruct (Z.leb_spec a b); cbn
    end; try reflexivity; try lia.
Qed.

(** [length] with an object of bounds: both bounds are inclusive and an
    omitted bound imposes nothing, as long as the upper bound is not 0. *)
Lemma length_bounds_inclusive (v ctx : jsval) (n : Z) (min max : option Z) :
  is_nullish v = false ->
  get_prop v "length" = VNum n ->
  0 <= n ->
  max <> Some 0 ->
  Validators.length v ctx (range_arg min max) = Ok (within min max n).
Proof.
  intros Hv Hlen Hn Hmax. unfold Validators.length, destructure_min_max.
  rewrite Hv. cbn [is_number range_arg is_nullish res_bind].
  rewrite range_arg_min, range_arg_max, Hlen. unfold within, js_gt.
  destruct min as [lo|], max as [hi|]; cbn;
    repeat match goal with
    | |- context [?a =? 0] => destruct (Z.eqb_spec a 0); cbn
    | |- context [?a <? ?b] => destruct (Z.ltb_spec a b); cbn
    | |- context [?a <=? ?b] => destruct (Z.leb_spec a b); cbn
    end; try reflexivity; try lia; congruence.
Qed.

(** [size] with an object of bounds, on a number: both bounds are
    inclusive and an omitted bound imposes nothing. *)
Lemma size_bounds_inclusive (x : Z) (ctx : jsval) (min max : option Z) :
  Validators.size (VNum x) ctx (range_arg min max) = Ok (within min max x).
Proof.
  unfold Validators.size, destructure_min_max.
  cbn [is_number range_arg is_nullish res_bind].
  rewrite range_arg_min, range_arg_max. unfold within, js_gt.
  destruct min as [lo|], max as [hi|]; cbn;
    repeat match goal with
    | |- context [?a <? ?b] => destruct (Z.ltb_spec a b); cbn
    | |- context [?a <=? ?b] => destruct (Z.leb_spec a b); cbn
    end; try reflexivity; lia.
Qed.

(** A bare number asks for exactly that length, respectively that value. *)
Lemma length_exact (v ctx : jsval) (n k : Z) :
  is_nullish v = false ->
  get_prop v "length" = VNum k ->
  Validators.length v ctx (VNum n) = Ok (k =? n).
Proof.
  intros Hv Hlen. unfold Validators.length. rewrite Hv, Hlen. reflexivity.
Qed.

Lemma size_exact (v ctx : jsval) (n : Z) :
  is_nullish v = false ->
  exists b, Validators.size v ctx (VNum n) = Ok b /\ (b = true <-> v = VNum n).
Proof.
  intros Hv. unfold Validators.size. rewrite Hv. cbn [is_number].
  eexists; split; [reflexivity | apply strict_eq_num].
Qed.

(** C4.  An upper bound of 0 given to [length] is not enforced: a string of
    length 1 passes [length({max: 0})], although 1 is not within the bound,
    while [size({max: 0})] rejects the number 1. *)
Theorem length_max_zero_not_enforced :
  Validators.length (VStr "a") VNull (range_arg None (Some 0)) = Ok true
  /\ within None (Some 0) (Z.of_nat (String.length "a")) = false
  /\ Validators.size (VNum 1) VNull (range_arg None (Some 0)) = Ok false.
Proof. repeat split. Qed.

(** ** The registry as an ordered dictionary *)


Lemma lookup_own_put_eq {A} (k : string) (v : A) (o : list (string * A)) :
  lookup_prop k (own_put k v o) = Some v.
Proof.
  induction o as [| [k' v'] o IH]; simpl.
  - rewrite String.eqb_refl. reflexivity.
  - destruct (String.eqb_spec k k') as [-> | Hne]; simpl.
    + rewrite String.eqb_refl. reflexivity.
    + destruct (String.eqb_spec k k'); [contradiction | exact IH].
Qed.

Lemma lookup_own_put_ne {A} (k k' : string) (v : A) (o : list (string * A)) :
  k <> k' -> lookup_prop k' (own_put k v o) = lookup_prop k' o.
Proof.
  intros Hne. induction o as [| [k0 v0] o IH]; simpl.
  - destruct (String.eqb_spec k' k); [congruence | reflexivity].
  - destruct (String.eqb_spec k k0) as [-> | Hne0]; simpl.
    + destruct (String.eqb_spec k' k0); [congruence | reflexivity].
    + rewrite IH. reflexivity.
Qed.

Lemma lookup_prop_None {A} (k : string) (o : list (string * A)) :
  lookup_prop k o = None <-> k ∉ map fst o.
Proof.
  induction o as [| [k' v'] o IH]; simpl.
  - split; [intros _ H; apply elem_of_nil in H; contradiction | reflexivity].
  - destruct (String.eqb_spec k k') as [-> | Hne].
    + split; [discriminate | intros H; exfalso; apply H; left].
    + rewrite IH. split.
      * intros H [? | ?]%elem_of_cons; contradiction.
      * intros H H'. apply H. right. exact H'.
Qed.

(** Writing an own property under a key that exists leaves the keys as
    they are; under a new key it adds the key after all the others. *)
Lemma keys_own_put {A} (k : string) (v : A) (o : list (string * A)) :
  map fst (own_put k v o)
  = if bool_decide (k ∈ map fst o) then map fst o else map fst o ++ [k].
Proof.
  induction o as [| [k' v'] o IH]; simpl.
  - reflexivity.
  - destruct (String.eqb_spec k k') as [-> | Hne]; simpl.
    + rewrite bool_decide_eq_true_2 by (left). reflexivity.
    + rewrite IH. case_bool_decide as Hin.
      * rewrite bool_decide_eq_true_2 by (right; exact Hin). reflexivity.
      * rewrite bool_decide_eq_false_2; [reflexivity |].
        intros [Heq | Hin']%elem_of_cons; [congruence | contradiction].
Qed.

(** An assignment to a plain object: what is assigned is read back under
    the same name, and nothing changes under the other names. *)
Lemma obj_get_set_eq {A} (k : string) (v : A) (o : list (string * A))
  (proto : option A) :
  obj_get k (obj_set k v o proto).1 (obj_set k v o proto).2 = Some v.
Proof.
  unfold obj_set, obj_get. destruct (lookup_prop k o) eqn:E; cbn [fst snd].
  - rewrite lookup_own_put_eq. reflexivity.
  - destruct (String.eqb k "__proto__") eqn:Ek; cbn [fst snd].
    + rewrite E. reflexivity.
    + rewrite lookup_own_put_eq. reflexivity.
Qed.

Lemma obj_get_set_ne {A} (k k' : string) (v : A) (o : list (string * A))
  (proto : option A) :
  k <> k' ->
  obj_get k' (obj_set k v o proto).1 (obj_set k v o proto).2
  = obj_get k' o proto.
Proof.
  intros Hne. unfold obj_set, obj_get.
  destruct (lookup_prop k o) eqn:E; cbn [fst snd].
  - rewrite lookup_own_put_ne by exact Hne. reflexivity.
  - destruct (String.eqb_spec k "__proto__") as [-> | Hk]; cbn [fst snd].
    + destruct (lookup_prop k' o); [reflexivity |].
      destruct (String.eqb_spec k' "__proto__"); [congruence | reflexivity].
    + rewrite lookup_own_put_ne by exact Hne. reflexivity.
Qed.

Lemma lookup_obj_set_ne {A} (k k' : string) (v : A) (o : list (string * A))
  (proto : option A) :
  k <> k' -> lookup_prop k' (obj_set k v o proto).1 = lookup_prop k' o.
Proof.
  intros Hne. unfold obj_set.
  destruct (lookup_prop k o); cbn [fst];
    [apply lookup_own_put_ne; exact Hne |].
  destruct (String.eqb k "__proto__"); cbn [fst];
    [reflexivity | apply lookup_own_put_ne; exact Hne].
Qed.

Lemma lookup_obj_set_eq {A} (k : string) (v : A) (o : list (string * A))
  (proto : option A) :
  k <> "__proto__" -> lookup_prop k (obj_set k v o proto).1 = Some v.
Proof.
  intros Hk. unfold obj_set.
  destruct (lookup_prop k o); cbn [fst]; [apply lookup_own_put_eq |].
  destruct (String.eqb_spec k "__proto__"); [contradiction |].
  apply lookup_own_put_eq.
Qed.


(** The own keys after an assignment: no key is added under a name that
    is a key already, nor under the name [__proto__]. *)
Lemma keys_obj_set {A} (k : string) (v : A) (o : list (string * A))
  (proto : option A) :
  map fst (obj_set k v o proto).1
  = if bool_decide (k ∈ map fst o) || String.eqb k "__proto__"
    then map fst o else map fst o ++ [k].
Proof.
  unfold obj_set. destruct (lookup_prop k o) eqn:E; cbn [fst].
  - rewrite keys_own_put.
    rewrite bool_decide_eq_true_2; [reflexivity |].
    destruct (decide (k ∈ map fst o)) as [H | H]; [exact H |].
    apply lookup_prop_None in H. congruence.
  - apply lookup_prop_None in E.
    rewrite (bool_decide_eq_false_2 _ E). cbn [orb].
    destruct (String.eqb k "__proto__"); cbn [fst]; [reflexivity |].
    rewrite keys_own_put, (bool_decide_eq_false_2 _ E). reflexivity.
Qed.

Lemma NoDup_keys_obj_set {A} (k : string) (v : A) (o : list (string * A))
  (proto : option A) :
  NoDup (map fst o) -> NoDup (map fst (obj_set k v o proto).1).
Proof.
  intros Hnd. rewrite keys_obj_set. case_bool_decide as Hin; [exact Hnd |].
  cbn [orb]. destruct (String.eqb k "__proto__"); [exact Hnd |].
  apply NoDup_app. split; [exact Hnd |]. split.
  - intros x Hx [-> | []%elem_of_nil]%elem_of_cons. contradiction.
  - apply NoDup_singleton.
Qed.

Lemma registered_register (k : string) (a : nat) (f : jsval)
  (p : Property.t) :
  Property.registered (Property._register k a f p) k
  = Some (Property.Rule a f).
Proof. apply obj_get_set_eq. Qed.

Lemma registered_register_ne (k k' : string) (a : nat) (f : jsval)
  (p : Property.t) :
  k <> k' ->
  Property.registered (Property._register k a f p) k'
  = Property.registered p k'.
Proof. apply obj_get_set_ne. Qed.

Lemma registered_own (p : Property.t) (k : string) (r : Property.rule) :
  lookup_prop k (Property.registry p) = Some r ->
  Property.registered p k = Some r.
Proof.
  intros H. unfold Property.registered, obj_get. rewrite H. reflexivity.
Qed.

Lemma own_keys_single {A} (k : string) (v : A) : own_keys [(k, v)] = [k].
Proof.
  unfold own_keys; simpl. destruct (array_index k); reflexivity.
Qed.

Lemma use_single (name : string) (arr : Property.use_arg)
  (ps : Property.t * store) :
  Property.use [(name, arr)] ps = Property.use_entry name arr ps.
Proof.
  unfold Property.use, Property.use_step. rewrite own_keys_single. simpl.
  rewrite String.eqb_refl. reflexivity.
Qed.

(** Every chaining call goes through [_register]: it changes the registry
    by one assignment under the name of its rule, and leaves the name, the
    messages and, unless it is [type], the declared type of the property as
    they are. *)
Lemma chain_registry_at (c : chain_call) (σ : store) :
  exists a f, forall p, exists q,
    (chain c (p, σ)).1 = Property._register (rule_of c) a f q
    /\ Property.registry q = Property.registry p
    /\ Property.registry_proto q = Property.registry_proto p.
Proof.
  destruct c as [b | t | r | r | e | re | name [v | a]];
    cbn [chain rule_of];
    unfold Property.required, Property.type, Property.length, Property.size,
      Property.enum, Property.match_, Property.register_fresh, alloc;
    do 2 eexists; intros p; rewrite ?use_single;
    unfold Property.use_entry, alloc; cbn [fst snd]; eexists;
    (split; [reflexivity | split; reflexivity]).
Qed.

Lemma chain_registry (c : chain_call) (ps : Property.t * store) :
  exists a f p,
    (chain c ps).1 = Property._register (rule_of c) a f p
    /\ Property.registry p = Property.registry ps.1
    /\ Property.registry_proto p = Property.registry_proto ps.1.
Proof.
  destruct ps as [p σ]. destruct (chain_registry_at c σ) as (a & f & H).
  destruct (H p) as (q & Hq). exists a, f, q. exact Hq.
Qed.

Lemma contents_alloc (xs : list jsval) (σ : store) :
  contents (σ ++ [xs]) (List.length σ) = xs.
Proof.
  unfold contents. rewrite lookup_app_r, Nat.sub_diag by lia. reflexivity.
Qed.





(** ** Error messages and typecasting *)

Lemma plain_get_own (m : gmap string jsval) (k : string) :
  object_prototype_member k = VUndefined -> plain_get m k = tbl_get m k.
Proof.
  intros Hk. unfold plain_get, tbl_get. destruct (m !! k); [reflexivity |].
  exact Hk.
Qed.

(** C6.  For a rule name that is not the name of a member of
    [Object.prototype], [_error] takes the first message that is set
    (truthy) among the message registered on the property for the rule,
    the [default] message of the property, the schema's message for the
    rule and the schema's [default] message: a [default] message of the
    property is taken whatever the schema holds.  A message that is a
    function is applied to the path, the context and the static arguments
    of the rule.  Under the name of a member of [Object.prototype] for
    which the property has no message of its own, the inherited member is
    taken instead. *)
Theorem error_message_resolution
  (call : funref -> list jsval -> res jsval)
  (p : Property.t) (schema : Schema.t) (r : string)
  (ctx : jsval) (args : list jsval) (path : string) :
  object_prototype_member r = VUndefined ->
  let own := tbl_get (Property.messages p) in
  let shared := tbl_get (Schema.messages schema) in
  let m := Property.resolve_message p schema r in
  (to_boolean (own r) = true -> m = own r)
  /\ (to_boolean (own r) = false -> to_boolean (own "default") = true ->
      m = own "default")
  /\ (to_boolean (own r) = false -> to_boolean (own "default") = false ->
      to_boolean (shared r) = true -> m = shared r)
  /\ (to_boolean (own r) = false -> to_boolean (own "default") = false ->
      to_boolean (shared r) = false -> m = shared "default")
  /\ (forall f, m = VFun f ->
      Property._error call p schema r ctx args path
      = (do s <- call f (VStr path :: ctx :: args);
         Ok (ValidationError.mk s path)))
  /\ (is_function m = false ->
      Property._error call p schema r ctx args path
      = Ok (ValidationError.mk m path))
  /\ (forall k,
        Property.messages p !! k = None ->
        to_boolean (object_prototype_member k) = true ->
        Property.resolve_message p schema k = object_prototype_member k).
Proof.
  intros Hr own shared m. subst own shared m.
  unfold Property.resolve_message, Property._error.
  rewrite (plain_get_own _ r Hr), (plain_get_own _ "default" eq_refl).
  unfold js_or.
  repeat split.
  - intros ->. reflexivity.
  - intros -> ->. reflexivity.
  - intros -> -> ->. reflexivity.
  - intros -> -> ->. reflexivity.
  - intros f Hm. unfold Property.resolve_message, js_or.
    rewrite (plain_get_own _ r Hr), (plain_get_own _ "default" eq_refl).
    unfold js_or in Hm. rewrite Hm. reflexivity.
  - intros Hm. unfold Property.resolve_message, js_or.
    rewrite (plain_get_own _ r Hr), (plain_get_own _ "default" eq_refl).
    match goal with |- context [match ?x with _ => _ end] =>
      change (is_function x = false) in Hm; destruct x end;
      try reflexivity; discriminate.
  - intros k Hk Hmember.
    assert (plain_get (Property.messages p) k = object_prototype_member k)
      as -> by (unfold plain_get; rewrite Hk; reflexivity).
    rewrite Hmember. reflexivity.
Qed.

(** C6, as stated, fails for a rule named after a member of
    [Object.prototype]: under the name [toString], the messages of a
    property that has a [default] message of its own hold the inherited
    method, which is taken for a message generator and called. *)
Lemma error_message_inherited_name :
  let p := {| Property.name := "title"; Property.registry := [];
              Property.registry_proto := None; Property._type := VNull;
              Property.messages := {[ "default" := VStr "bad title" ]} |} in
  let schema := Schema.mk ∅ {[ "toString" := VStr "unreadable" ]} ∅ in
  Property.resolve_registered_message p schema "toString" = VStr "bad title"
  /\ Property.resolve_message p schema "toString"
     = VFun (FObjectMethod "toString")
  /\ Property._error sample_call p schema "toString" VNull [] "title"
     = Ok (ValidationError.mk (VStr "[object Undefined]") "title").
Proof. repeat split. Qed.

(** C7.  [typecast] returns the value unchanged when the property has no
    declared type; otherwise it names the type (the name of a constructor,
    or the string itself), looks the name up among the typecasters of the
    schema, falling back to the name in lower case, applies the caster when
    it is a function and throws [UnknownType] when it is not. *)
Theorem typecast_resolution
  (call : funref -> list jsval -> res jsval)
  (p : Property.t) (schema : Schema.t) (v : jsval) :
  (to_boolean (Property._type p) = false ->
     Property.typecast call p schema v = Ok v)
  /\ (forall name,
        to_boolean (Property._type p) = true ->
        Property.type_name (Property._type p) = Ok name ->
        let cast := js_or (tbl_get (Schema.typecasters schema) name)
                      (tbl_get (Schema.typecasters schema) (toLowerCase name)) in
        (forall f, cast = VFun f ->
           Property.typecast call p schema v = call f [v])
        /\ (is_function cast = false ->
            Property.typecast call p schema v = Err (UnknownType name)))
  /\ (forall f, Property.type_name (VFun f) = Ok (fn_name f))
  /\ (forall s, Property.type_name (VStr s) = Ok s)
  /\ Property._type (Property.new (Property.name p)) = VNull.
Proof.
  unfold Property.typecast. split; [| split; [| repeat split]].
  - intros ->. reflexivity.
  - intros name Ht Hn. rewrite Ht, Hn. cbn [negb res_bind].
    split.
    + intros f ->. reflexivity.
    + intros Hc. destruct (js_or _ _); try reflexivity; discriminate.
Qed.

Lemma error_message_resolution_witness :
  let p := {| Property.name := "title"; Property.registry := [];
              Property.registry_proto := None; Property._type := VNull;
              Property.messages := {[ "default" := VStr "bad title" ]} |} in
  let schema := Schema.mk ∅ {[ "required" := VStr "missing" ]} ∅ in
  Property.resolve_message p schema "required" = VStr "bad title"
  /\ Property._error sample_call p schema "required" VNull [VBool true] "title"
     = Ok (ValidationError.mk (VStr "bad title") "title").
Proof.
  intros p schema.
  pose proof (error_message_resolution sample_call p schema "required"
                VNull [VBool true] "title" eq_refl)
    as (_ & H2 & _ & _ & _ & H6 & _).
  split.
  - exact (H2 eq_refl eq_refl).
  - exact (H6 eq_refl).
Defined.

Lemma typecast_resolution_witness :
  let p := {| Property.name := "age"; Property.registry := [];
              Property.registry_proto := None;
              Property._type := VFun FString;
              Property.messages := ∅ |} in
  let schema := Schema.mk ∅ ∅ {[ "string" := VFun (FUser "toText" 0 1) ]} in
  Property.typecast sample_call (Property.new "age") schema (VNum 7) = Ok (VNum 7)
  /\ Property.typecast sample_call p schema (VNum 7)
     = sample_call (FUser "toText" 0 1) [VNum 7]
  /\ Property.typecast sample_call p (Schema.mk ∅ ∅ ∅) (VNum 7)
     = Err (UnknownType "String").
Proof.
  intros p schema. split; [| split].
  - exact (proj1 (typecast_resolution sample_call (Property.new "age") schema
                    (VNum 7)) eq_refl).
  - exact (proj1 (proj1 (proj2 (typecast_resolution sample_call p schema (VNum 7)))
                    "String" eq_refl eq_refl) (FUser "toText" 0 1) eq_refl).
  - exact (proj2 (proj1 (proj2 (typecast_resolution sample_call p
                                  (Schema.mk ∅ ∅ ∅) (VNum 7)))
                    "String" eq_refl eq_refl) eq_refl).
Defined.

(** ** Validation of one property *)

Lemma index_keys_none (ks : list string) :
  (forall k, k ∈ ks -> array_index k = None) -> index_keys ks = [].
Proof.
  induction ks as [| k ks IH]; intros H; simpl; [reflexivity |].
  rewrite (H k) by left. apply IH. intros k' Hk'. apply H. right. exact Hk'.
Qed.

Lemma name_keys_none (ks : list string) :
  (forall k, k ∈ ks -> array_index k = None) -> name_keys ks = ks.
Proof.
  induction ks as [| k ks IH]; intros H; simpl; [reflexivity |].
  rewrite (H k) by left. f_equal. apply IH. intros k' Hk'. apply H. right. exact Hk'.
Qed.

(** When no key is an array index, [Object.keys] lists the keys in the
    order in which they were created. *)
Lemma own_keys_creation_order {A} (o : list (string * A)) :
  (forall k, k ∈ map fst o -> array_index k = None) ->
  own_keys o = map fst o.
Proof.
  intros H. unfold own_keys.
  rewrite index_keys_none, name_keys_none by exact H. reflexivity.
Qed.

Lemma lookup_prop_NoDup {A} (o : list (string * A)) (k : string) (v : A) :
  NoDup (map fst o) -> (k, v) ∈ o -> lookup_prop k o = Some v.
Proof.
  induction o as [| [k' v'] o IH]; intros Hnd Hin.
  - apply elem_of_nil in Hin. contradiction.
  - apply NoDup_cons in Hnd as [Hk Hnd]. simpl.
    apply elem_of_cons in Hin as [[= -> ->] | Hin].
    + rewrite String.eqb_refl. reflexivity.
    + destruct (String.eqb_spec k k') as [-> | _].
      * exfalso. apply Hk. apply list_elem_of_fmap. exists (k', v). split; [reflexivity | exact Hin].
      * apply IH; assumption.
Qed.

Section Validate.

Variable call : funref -> list jsval -> res jsval.
Variables (p : Property.t) (schema : Schema.t) (σ : list (list jsval)).
Variables (value ctx : jsval) (pth : string).

Local Abbreviation passes := (Property.rule_passes call schema σ value ctx pth).
Local Abbreviation fails := (Property.rule_fails call schema σ value ctx pth).
Local Abbreviation invocation := (Property.invocation_of schema σ value ctx pth).
Local Abbreviation registered kr :=
  (lookup_prop kr.1 (Property.registry p) = Some kr.2).

Lemma run_passing (kr : string * Property.rule) :
  registered kr -> passes kr ->
  exists i, invocation kr = Some i
            /\ Property._run call p schema σ kr.1 value ctx pth = ([i], Ok None).
Proof.
  intros Hreg (f & w & Hv & Hc & Hw).
  unfold Property._run, Property.invocation_of.
  rewrite (registered_own _ _ _ Hreg). unfold Property.run_rule.
  fold (Property.validator_of schema kr.1 kr.2). rewrite Hv.
  eexists; split; [reflexivity |].
  fold (Property.actuals σ kr.2 value ctx pth). rewrite Hc. simpl.
  rewrite Hw. reflexivity.
Qed.

Lemma run_failing (kr : string * Property.rule) :
  registered kr -> fails kr ->
  exists i, invocation kr = Some i
            /\ Property._run call p schema σ kr.1 value ctx pth
               = ([i], do e <- Property._error call p schema kr.1 ctx
                                 (contents σ (Property.args kr.2)) pth;
                       Ok (Some e)).
Proof.
  intros Hreg (f & w & Hv & Hc & Hw).
  unfold Property._run, Property.invocation_of.
  rewrite (registered_own _ _ _ Hreg). unfold Property.run_rule.
  fold (Property.validator_of schema kr.1 kr.2). rewrite Hv.
  eexists; split; [reflexivity |].
  fold (Property.actuals σ kr.2 value ctx pth). rewrite Hc. simpl.
  rewrite Hw. reflexivity.
Qed.

Lemma run_rules_all_pass (es : list (string * Property.rule)) :
  (forall kr, kr ∈ es -> registered kr) ->
  (forall kr, kr ∈ es -> passes kr) ->
  Property.run_rules call p schema σ (map fst es) value ctx pth
  = (omap invocation es, Ok None).
Proof.
  induction es as [| kr es IH]; intros Hreg Hpass; [reflexivity |].
  destruct (run_passing kr) as (i & Hi & Hrun);
    [apply Hreg; left | apply Hpass; left |].
  cbn [map Property.run_rules]. rewrite Hrun, IH.
  - cbn. rewrite Hi. reflexivity.
  - intros kr' H'. apply Hreg. right. exact H'.
  - intros kr' H'. apply Hpass. right. exact H'.
Qed.

Lemma run_rules_first_failure (pre post : list (string * Property.rule))
  (kr : string * Property.rule) :
  (forall kr', kr' ∈ pre ++ [kr] -> registered kr') ->
  (forall kr', kr' ∈ pre -> passes kr') ->
  fails kr ->
  Property.run_rules call p schema σ (map fst (pre ++ kr :: post)) value ctx pth
  = (omap invocation (pre ++ [kr]),
     do e <- Property._error call p schema kr.1 ctx
               (contents σ (Property.args kr.2)) pth;
     Ok (Some e)).
Proof.
  induction pre as [| kr0 pre IH]; intros Hreg Hpass Hfail.
  - destruct (run_failing kr) as (i & Hi & Hrun); [apply Hreg; left | exact Hfail |].
    cbn [app map Property.run_rules]. rewrite Hrun.
    cbn. rewrite Hi.
    destruct (Property._error _ _ _ _ _ _ _); reflexivity.
  - destruct (run_passing kr0) as (i & Hi & Hrun);
      [apply Hreg; left | apply Hpass; left |].
    cbn [app map Property.run_rules]. rewrite Hrun.
    rewrite IH.
    + cbn. rewrite Hi. reflexivity.
    + intros kr' H'. apply Hreg. right. exact H'.
    + intros kr' H'. apply Hpass. right. exact H'.
    + exact Hfail.
Qed.

End Validate.

(** C1.  On a property whose rule names are not array indices, [validate]
    visits the rules in the order in which their names were registered
    and calls the validator of each (the function given at registration,
    else the schema's validator of that name) on the value, the context,
    the static arguments and the path.  The first rule whose validator
    returns a falsy value ends the visit with the error of that rule, the
    rules after it are not called; when every rule passes, and when the
    registry is empty, the result is null. *)
Theorem validate_first_failure_wins
  (call : funref -> list jsval -> res jsval)
  (p : Property.t) (schema : Schema.t) (σ : list (list jsval))
  (value ctx : jsval) (path : option string) :
  NoDup (map fst (Property.registry p)) ->
  (forall k, k ∈ map fst (Property.registry p) -> array_index k = None) ->
  let pth := default (Property.name p) path in
  (forall pre kr post,
      Property.registry p = pre ++ kr :: post ->
      (forall kr', kr' ∈ pre ->
         Property.rule_passes call schema σ value ctx pth kr') ->
      Property.rule_fails call schema σ value ctx pth kr ->
      Property.validate call p schema σ value ctx path
      = (omap (Property.invocation_of schema σ value ctx pth) (pre ++ [kr]),
         do e <- Property._error call p schema kr.1 ctx
                   (contents σ (Property.args kr.2)) pth;
         Ok (Some e)))
  /\ ((forall kr, kr ∈ Property.registry p ->
         Property.rule_passes call schema σ value ctx pth kr) ->
      Property.validate call p schema σ value ctx path
      = (omap (Property.invocation_of schema σ value ctx pth)
           (Property.registry p),
         Ok None))
  /\ (Property.registry p = [] ->
      Property.validate call p schema σ value ctx path = ([], Ok None))
  /\ Property.validate call p schema σ value ctx path
     = Property.validate_in_registration_order call p schema σ value ctx path.
Proof.
  intros Hnd Hidx pth.
  assert (Hkeys : Property.validate call p schema σ value ctx path
                  = Property.run_rules call p schema σ
                      (map fst (Property.registry p)) value ctx pth).
  { unfold Property.validate. rewrite own_keys_creation_order by exact Hidx.
    reflexivity. }
  assert (Hreg : forall kr, kr ∈ Property.registry p ->
                 lookup_prop kr.1 (Property.registry p) = Some kr.2).
  { intros [k r] Hin. apply lookup_prop_NoDup; assumption. }
  split; [| split; [| split]].
  - intros pre kr post Hsplit Hpass Hfail. rewrite Hkeys, Hsplit.
    apply run_rules_first_failure; try assumption.
    intros kr' Hin. apply Hreg. rewrite Hsplit.
    apply elem_of_app in Hin as [Hin | Hin%list_elem_of_singleton].
    + apply elem_of_app. left. exact Hin.
    + subst kr'. apply elem_of_app. right. left.
  - intros Hpass. rewrite Hkeys. apply run_rules_all_pass; assumption.
  - intros Hempty. rewrite Hkeys, Hempty. reflexivity.
  - exact Hkeys.
Qed.

(** An invocation made by [validate] has the shape
    [validator(value, ctx, ...args, path)], the validator being the custom
    function of the rule when there is one, else the schema's. *)
Lemma invocation_shape (schema : Schema.t) (σ : list (list jsval))
  (value ctx : jsval) (pth : string) (k : string) (r : Property.rule)
  (i : Property.invocation) :
  Property.invocation_of schema σ value ctx pth (k, r) = Some i ->
  Property.rule_name i = k
  /\ VFun (Property.callee i)
     = (if to_boolean (Property.fn r) then Property.fn r
        else tbl_get (Schema.validators schema) k)
  /\ Property.arguments i
     = value :: ctx :: contents σ (Property.args r) ++ [VStr pth].
Proof.
  unfold Property.invocation_of, Property.validator_of, js_or; simpl.
  destruct (if to_boolean (Property.fn r) then _ else _) eqn:E;
    try discriminate.
  intros [= <-]. repeat split.
Qed.

(** C1, as stated, fails on rule names that are array indices: with the
    rule [a] registered before the rule [0], both failing, [validate] calls
    the validator of [0] and reports its error, and never calls that of
    [a]. *)
Lemma validate_index_names_first :
  map fst (Property.registry numbered_rules.1) = ["a"; "0"]
  /\ Property.validate sample_call numbered_rules.1 sample_schema
       numbered_rules.2 (VNum 1) VNull None
     = ([Property.mkInvocation "0" (FUser "no" 0 2) [VNum 1; VNull; VStr "x"]],
        Ok (Some (ValidationError.mk (VStr "0 failed") "x")))
  /\ Property.validate_in_registration_order sample_call numbered_rules.1
       sample_schema numbered_rules.2 (VNum 1) VNull None
     = ([Property.mkInvocation "a" (FUser "no" 0 2) [VNum 1; VNull; VStr "x"]],
        Ok (Some (ValidationError.mk (VStr "a failed") "x")))
  /\ Property.validate sample_call numbered_rules.1 sample_schema
       numbered_rules.2 (VNum 1) VNull None
     <> Property.validate_in_registration_order sample_call numbered_rules.1
          sample_schema numbered_rules.2 (VNum 1) VNull None.
Proof.
  split; [reflexivity |]. split; [reflexivity |]. split; [reflexivity |].
  intros H. vm_compute in H. discriminate H.
Qed.

Lemma validate_first_failure_wins_witness :
  Property.validate sample_call username_rules.1 sample_schema
    username_rules.2 VUndefined VNull None
  = ([Property.mkInvocation "required" (FUser "required" 0 3)
        [VUndefined; VNull; VBool true; VStr "username"]],
     Ok (Some (ValidationError.mk (VStr "missing") "username")))
  /\ Property.validate sample_call username_rules.1 sample_schema
       username_rules.2 (VStr "0101") VNull None
     = ([Property.mkInvocation "required" (FUser "required" 0 3)
           [VStr "0101"; VNull; VBool true; VStr "username"];
         Property.mkInvocation "binary" (FUser "yes" 0 2)
           [VStr "0101"; VNull; VStr "username"]],
        Ok None).
Proof.
  assert (Hnd : NoDup (map fst (Property.registry username_rules.1))).
  { apply (bool_decide_unpack _). vm_compute. exact I. }
  assert (Hidx : forall k, k ∈ map fst (Property.registry username_rules.1) ->
                           array_index k = None).
  { intros k Hk. vm_compute in Hk.
    apply elem_of_cons in Hk as [-> | Hk]; [reflexivity |].
    apply elem_of_cons in Hk as [-> | Hk]; [reflexivity |].
    apply elem_of_nil in Hk. contradiction. }
  split.
  - refine (proj1 (validate_first_failure_wins sample_call username_rules.1
                     sample_schema username_rules.2 VUndefined VNull None
                     Hnd Hidx)
              [] ("required", Property.Rule 0 VUndefined)
              [("binary", Property.Rule 1 (VFun (FUser "yes" 0 2)))]
              eq_refl _ _).
    + intros kr' Hin. apply elem_of_nil in Hin. contradiction.
    + exists (FUser "required" 0 3), (VBool false). repeat split.
  - refine (proj1 (proj2 (validate_first_failure_wins sample_call
                            username_rules.1 sample_schema username_rules.2
                            (VStr "0101") VNull None Hnd Hidx)) _).
    intros kr Hin. vm_compute in Hin.
    apply elem_of_cons in Hin as [-> | Hin].
    { exists (FUser "required" 0 3), (VBool true). repeat split. }
    apply elem_of_cons in Hin as [-> | Hin].
    { exists (FUser "yes" 0 2), (VBool true). repeat split. }
    apply elem_of_nil in Hin. contradiction.
Defined.

(** ** Registration with [use] *)

Lemma insert_index_perm (x : N * string) (l : list (N * string)) :
  insert_index x l ≡ₚ x :: l.
Proof.
  induction l as [| y l IH]; simpl; [reflexivity |].
  destruct (fst x <=? fst y)%N; [reflexivity |].
  rewrite IH. apply Permutation_swap.
Qed.

(** [Object.keys] lists every key once: it is a rearrangement of the keys
    in creation order. *)
Lemma own_keys_perm {A} (o : list (string * A)) : own_keys o ≡ₚ map fst o.
Proof.
  unfold own_keys. induction (map fst o) as [| k ks IH]; simpl; [reflexivity |].
  destruct (array_index k) as [n |].
  - rewrite insert_index_perm. simpl. rewrite IH. reflexivity.
  - rewrite <- Permutation_middle. rewrite IH. reflexivity.
Qed.

Lemma lookup_prop_Some_key {A} (k : string) (v : A) (o : list (string * A)) :
  lookup_prop k o = Some v -> k ∈ map fst o.
Proof.
  induction o as [| [k' v'] o IH]; simpl; [discriminate |].
  destruct (String.eqb_spec k k') as [-> | _]; intros H.
  - left.
  - right. apply IH. exact H.
Qed.

Section Use.

Variable fns : list (string * Property.use_arg).

Local Abbreviation use_step := (Property.use_step fns).

(** A step for a name whose entry is not the array at [a] leaves that
    array, and the rules of the other names, as they are. *)
Lemma use_step_frame (p : Property.t) (σ : list (list jsval))
  (k : string) (a : nat) (xs : list jsval) :
  σ !! a = Some xs ->
  lookup_prop k fns <> Some (Property.UArr a) ->
  (use_step (p, σ) k).2 !! a = Some xs
  /\ forall name, name <> k ->
       Property.registered (use_step (p, σ) k).1 name
       = Property.registered p name.
Proof.
  intros Ha Hk. unfold Property.use_step.
  destruct (lookup_prop k fns) as [[v | b] |]; simpl.
  - split.
    + rewrite list_lookup_insert_ne.
      * rewrite lookup_app_l; [exact Ha |]. eapply lookup_lt_Some; exact Ha.
      * apply lookup_lt_Some in Ha. lia.
    + intros name Hne. apply registered_register_ne. congruence.
  - assert (b <> a) by congruence. split.
    + rewrite list_lookup_insert_ne; [exact Ha | assumption].
    + intros name Hne. apply registered_register_ne. congruence.
  - split; [exact Ha | reflexivity].
Qed.

Lemma use_fold_frame (ks : list string) (p : Property.t)
  (σ : list (list jsval)) (a : nat) (xs : list jsval) :
  σ !! a = Some xs ->
  (forall k, k ∈ ks -> lookup_prop k fns <> Some (Property.UArr a)) ->
  (foldl use_step (p, σ) ks).2 !! a = Some xs
  /\ forall name, name ∉ ks ->
       Property.registered (foldl use_step (p, σ) ks).1 name
       = Property.registered p name.
Proof.
  revert p σ. induction ks as [| k ks IH]; intros p σ Ha Hks; simpl.
  - split; [exact Ha | reflexivity].
  - destruct (use_step_frame p σ k a xs Ha) as [Ha' Hreg'];
      [apply Hks; left |].
    destruct (use_step (p, σ) k) as [p1 σ1] eqn:E. simpl in Ha', Hreg'.
    destruct (IH p1 σ1 Ha') as [Ha'' Hreg''].
    { intros k' Hk'. apply Hks. right. exact Hk'. }
    split; [exact Ha'' |].
    intros name Hname. rewrite Hreg''.
    + apply Hreg'. intros ->. apply Hname. left.
    + intros Hin. apply Hname. right. exact Hin.
Qed.

(** The step for a name whose entry is the array at [a]: [shift] takes the
    first element off that array, and the array itself is registered. *)
Lemma use_step_shift (p : Property.t) (σ : list (list jsval))
  (name : string) (a : nat) (f : jsval) (static : list jsval) :
  lookup_prop name fns = Some (Property.UArr a) ->
  σ !! a = Some (f :: static) ->
  (use_step (p, σ) name).2 !! a = Some static
  /\ Property.registered (use_step (p, σ) name).1 name
     = Some (Property.Rule a f).
Proof.
  intros Hname Ha. unfold Property.use_step. rewrite Hname. simpl.
  unfold contents. rewrite Ha. simpl. split.
  - apply list_lookup_insert_eq. eapply lookup_lt_Some; exact Ha.
  - apply registered_register.
Qed.

End Use.

(** C10.  [use] changes in place an array that it is given under a name:
    provided no other name of the same call holds that same array, after
    the call the array has lost its first element and holds the static
    arguments only, and it is that very array which is registered as the
    arguments of the rule, with the removed element as its function. *)
Theorem use_shifts_the_callers_array
  (fns : list (string * Property.use_arg)) (p : Property.t)
  (σ : list (list jsval)) (name : string) (a : nat)
  (f : jsval) (static : list jsval) :
  NoDup (map fst fns) ->
  lookup_prop name fns = Some (Property.UArr a) ->
  σ !! a = Some (f :: static) ->
  (forall k, k <> name -> lookup_prop k fns <> Some (Property.UArr a)) ->
  (Property.use fns (p, σ)).2 !! a = Some static
  /\ Property.registered (Property.use fns (p, σ)).1 name
     = Some (Property.Rule a f).
Proof.
  intros Hnd Hname Ha Hothers. unfold Property.use.
  assert (Hin : name ∈ own_keys fns).
  { rewrite own_keys_perm. eapply lookup_prop_Some_key; exact Hname. }
  assert (Hnd' : NoDup (own_keys fns)) by (rewrite own_keys_perm; exact Hnd).
  apply list_elem_of_split in Hin as (pre & post & Hsplit).
  rewrite Hsplit in Hnd' |- *.
  apply NoDup_app in Hnd' as (_ & Hpre & Hpost).
  apply NoDup_cons in Hpost as [Hpost _].
  rewrite foldl_app. simpl.
  destruct (use_fold_frame fns pre p σ a (f :: static) Ha) as [Ha1 _].
  { intros k Hk. apply Hothers. intros ->. apply (Hpre name Hk). left. }
  destruct (foldl (Property.use_step fns) (p, σ) pre) as [p1 σ1]. simpl in Ha1.
  destruct (use_step_shift fns p1 σ1 name a f static Hname Ha1) as [Ha2 Hr2].
  destruct (Property.use_step fns (p1, σ1) name) as [p2 σ2]. simpl in Ha2, Hr2.
  destruct (use_fold_frame fns post p2 σ2 a static Ha2) as [Ha3 Hr3].
  { intros k Hk. apply Hothers. intros ->. contradiction. }
  split; [exact Ha3 |]. rewrite Hr3; assumption.
Qed.

Lemma use_shifts_the_callers_array_witness :
  (Property.use bits_rules (Property.new "some.path", bits_store)).2 !! 0%nat
  = Some [VNum 32]
  /\ lookup_prop "bits"
       (Property.registry
          (Property.use bits_rules (Property.new "some.path", bits_store)).1)
     = Some (Property.Rule 0 (VFun (FUser "yes" 0 2))).
Proof.
  apply (use_shifts_the_callers_array bits_rules (Property.new "some.path")
           bits_store "bits" 0%nat (VFun (FUser "yes" 0 2)) [VNum 32]).
  - apply (bool_decide_unpack _). vm_compute. exact I.
  - reflexivity.
  - reflexivity.
  - intros k Hk. simpl. destruct (String.eqb_spec k "bits"); congruence.
Defined.

(** C10, as stated, fails when the same array is given under two names:
    each of the two entries shifts it, so that after the call it has lost
    its first static argument as well. *)
Lemma use_shared_array_shifted_twice :
  lookup_prop "a" shared_rules = Some (Property.UArr 0)
  /\ shared_store !! 0%nat = Some [VFun (FUser "yes" 0 2); VNum 1; VNum 2]
  /\ (Property.use shared_rules (Property.new "x", shared_store)).2 !! 0%nat
     = Some [VNum 2]
  /\ (Property.use shared_rules (Property.new "x", shared_store)).2 !! 0%nat
     <> Some [VNum 1; VNum 2]
  /\ lookup_prop "b"
       (Property.registry
          (Property.use shared_rules (Property.new "x", shared_store)).1)
     = Some (Property.Rule 0 (VNum 1)).
Proof.
  split; [reflexivity |]. split; [reflexivity |]. split; [reflexivity |].
  split; [| reflexivity]. intros H. vm_compute in H. discriminate H.
Qed.

(** ** Enumeration of wildcard paths *)

Lemma push_char_nonempty (c : ascii) (parts : list string) :
  push_char c parts <> [].
Proof. destruct parts; discriminate. Qed.

Lemma split_wildcard_nonempty (s : string) : split_wildcard s <> [].
Proof.
  destruct s as [| c [| d rest]].
  - discriminate.
  - apply push_char_nonempty.
  - change (split_wildcard (String c (String d rest)))
      with (if Ascii.eqb c "." && Ascii.eqb d "$" && lookahead rest
            then EmptyString :: split_wildcard rest
            else push_char c (split_wildcard (String d rest))).
    destruct (_ && _); [discriminate | apply push_char_nonempty].
Qed.

Lemma join_with_push (sep : string) (c : ascii) (parts : list string) :
  join_with sep (push_char c parts) = String c (join_with sep parts).
Proof. destruct parts as [| p [| q ps]]; reflexivity. Qed.

Lemma join_with_cons (sep p : string) (parts : list string) :
  parts <> [] ->
  join_with sep (p :: parts) = (p ++ sep ++ join_with sep parts)%string.
Proof. destruct parts; [contradiction | reflexivity]. Qed.

(** Joining the parts with the separator gives the path back. *)
Lemma join_split_wildcard (s : string) :
  join_with ".$" (split_wildcard s) = s.
Proof.
  enough (H : join_with ".$" (split_wildcard s) = s
              /\ forall c, join_with ".$" (split_wildcard (String c s))
                           = String c s) by apply H.
  induction s as [| d rest [IH1 IH2]].
  - split; [reflexivity | intros c; reflexivity].
  - split; [apply IH2 |]. intros c.
    change (split_wildcard (String c (String d rest)))
      with (if Ascii.eqb c "." && Ascii.eqb d "$" && lookahead rest
            then EmptyString :: split_wildcard rest
            else push_char c (split_wildcard (String d rest))).
    destruct (Ascii.eqb c "." && Ascii.eqb d "$" && lookahead rest) eqn:E.
    + apply andb_prop in E as [E _]. apply andb_prop in E as [Ec Ed].
      apply Ascii.eqb_eq in Ec, Ed. subst c d.
      rewrite join_with_cons by apply split_wildcard_nonempty.
      rewrite IH1. reflexivity.
    + rewrite join_with_push, IH2. reflexivity.
Qed.

Lemma dollars_app (a b : string) :
  dollars (a ++ b) = (dollars a + dollars b)%nat.
Proof.
  induction a as [| c a IH]; simpl; [reflexivity |]. rewrite IH. lia.
Qed.

Lemma dollars_uint (u : Decimal.uint) :
  dollars (NilEmpty.string_of_uint u) = 0%nat.
Proof. induction u; simpl; auto. Qed.

Lemma dollars_dec (n : nat) : dollars (dec n) = 0%nat.
Proof. apply dollars_uint. Qed.

Lemma dollars_join_index (i : nat) (first : string) :
  dollars (acc_str (join (ANum i) (AStr first))) = dollars first.
Proof.
  unfold join; simpl. destruct (String.eqb_spec first "") as [-> | Hne]; simpl.
  - apply dollars_dec.
  - rewrite !dollars_app, dollars_dec. simpl. lia.
Qed.

(** Each recursive call of [enumerate] is on a path with one dollar sign
    less. *)
Lemma dollars_next (path first part : string) (parts : list string) (i : nat) :
  split_wildcard path = first :: part :: parts ->
  path = (first ++ ".$" ++ join_with ".$" (part :: parts))%string
  /\ S (dollars (acc_str (join (ANum i) (AStr first))
                 ++ join_with ".$" (part :: parts)))
     = dollars path.
Proof.
  intros Hsplit.
  assert (Hpath : path = (first ++ ".$" ++ join_with ".$" (part :: parts))%string).
  { rewrite <- (join_split_wildcard path), Hsplit.
    apply join_with_cons. discriminate. }
  split; [exact Hpath |].
  rewrite Hpath, !dollars_app, dollars_join_index. simpl. lia.
Qed.

(** ** Wildcard segments *)

Lemma split_dots_cons (c : ascii) (s : string) :
  split_dots (String c s)
  = if Ascii.eqb c "." then EmptyString :: split_dots s
    else push_char c (split_dots s).
Proof. reflexivity. Qed.

Lemma split_wildcard_cons2 (c d : ascii) (rest : string) :
  split_wildcard (String c (String d rest))
  = if Ascii.eqb c "." && Ascii.eqb d "$" && lookahead rest
    then EmptyString :: split_wildcard rest
    else push_char c (split_wildcard (String d rest)).
Proof. reflexivity. Qed.

Lemma tl_push_char (c : ascii) (parts : list string) :
  tl (push_char c parts) = tl parts.
Proof. destruct parts; reflexivity. Qed.

Lemma length_push_char (c : ascii) (parts : list string) :
  parts <> [] -> List.length (push_char c parts) = List.length parts.
Proof. destruct parts; [contradiction | reflexivity]. Qed.

Lemma split_dots_nonempty (s : string) : split_dots s <> [].
Proof.
  destruct s as [| c s]; [discriminate |]. rewrite split_dots_cons.
  destruct (Ascii.eqb c "."); [discriminate | apply push_char_nonempty].
Qed.

(** The first segment of a string is empty exactly when the string is
    empty or begins with a dot. *)
Lemma first_segment_empty (s : string) :
  String.eqb (hd EmptyString (split_dots s)) "" = lookahead s.
Proof.
  destruct s as [| d r]; [reflexivity |]. rewrite split_dots_cons. simpl.
  destruct (Ascii.eqb d "."); [reflexivity |].
  destruct (split_dots r); reflexivity.
Qed.

Lemma count_wild_split_dots (c : ascii) (s : string) :
  Ascii.eqb c "." = false ->
  count_wild (split_dots (String c s))
  = ((if Ascii.eqb c "$" && lookahead s then 1 else 0) + wildcards s)%nat.
Proof.
  intros Hc. rewrite split_dots_cons, Hc. unfold wildcards.
  rewrite <- first_segment_empty.
  pose proof (split_dots_nonempty s) as Hne.
  destruct (split_dots s) as [| h segs]; [contradiction |]. simpl.
  destruct (Ascii.eqb_spec c "$") as [-> | Hd]; simpl.
  - destruct h; reflexivity.
  - destruct (Ascii.eqb_spec c "$"); [contradiction | reflexivity].
Qed.

Lemma wildcards_cons (c : ascii) (s : string) :
  wildcards (String c s)
  = if Ascii.eqb c "." then count_wild (split_dots s) else wildcards s.
Proof.
  unfold wildcards. rewrite split_dots_cons.
  destruct (Ascii.eqb c "."); [reflexivity | apply f_equal, tl_push_char].
Qed.

Lemma parts_skip_char (c : ascii) (s : string) :
  Ascii.eqb c "." = false ->
  List.length (split_wildcard (String c s)) = List.length (split_wildcard s).
Proof.
  intros Hc. destruct s as [| d rest].
  - reflexivity.
  - rewrite split_wildcard_cons2, Hc. cbn [andb].
    apply length_push_char, split_wildcard_nonempty.
Qed.

(** The separator of [enumerate] cuts a path at its wildcard segments:
    there is one part more than there are wildcard segments. *)
Lemma split_wildcard_parts (path : string) :
  List.length (split_wildcard path) = S (wildcards path).
Proof.
  enough (H : List.length (split_wildcard path) = S (wildcards path)
              /\ forall c, List.length (split_wildcard (String c path))
                           = S (wildcards (String c path))) by apply H.
  induction path as [| d rest [IH1 IH2]].
  - split; [reflexivity |]. intros c. rewrite wildcards_cons.
    destruct (Ascii.eqb c "."); reflexivity.
  - split; [apply IH2 |]. intros c. rewrite wildcards_cons.
    destruct (Ascii.eqb c ".") eqn:Hc.
    + destruct (Ascii.eqb d ".") eqn:Hd.
      * rewrite split_wildcard_cons2, Hc.
        assert (Ascii.eqb d "$" = false) as ->.
        { apply Ascii.eqb_eq in Hd. subst d. reflexivity. }
        cbn [andb].
        rewrite length_push_char by apply split_wildcard_nonempty.
        rewrite IH2, wildcards_cons, Hd.
        rewrite split_dots_cons, Hd. reflexivity.
      * rewrite count_wild_split_dots by exact Hd.
        rewrite split_wildcard_cons2, Hc. cbn [andb].
        destruct (Ascii.eqb d "$" && lookahead rest).
        -- cbn [List.length]. rewrite IH1. reflexivity.
        -- rewrite length_push_char by apply split_wildcard_nonempty.
           rewrite parts_skip_char by exact Hd. rewrite IH1. reflexivity.
    + rewrite parts_skip_char by exact Hc. apply IH2.
Qed.

(** A path without wildcard segment is its own single part; a path with a
    wildcard segment has a part after the first. *)
Lemma no_wildcard_single_part (path : string) :
  wildcards path = 0%nat <-> split_wildcard path = [path].
Proof.
  pose proof (split_wildcard_parts path) as Hlen.
  pose proof (join_split_wildcard path) as Hjoin.
  split.
  - intros H0. rewrite H0 in Hlen.
    destruct (split_wildcard path) as [| first [| ? ?]]; try discriminate.
    simpl in Hjoin. rewrite Hjoin. reflexivity.
  - intros Hsplit. rewrite Hsplit in Hlen. simpl in Hlen. lia.
Qed.

Section EnumerateFacts.

Variable dot_get : jsval -> string -> jsval.

(** Any fuel above the number of dollar signs gives the same calls. *)
Lemma enumerate_fuel_enough (obj : jsval) (f1 f2 : nat) (path : string) :
  (dollars path < f1)%nat -> (dollars path < f2)%nat ->
  enumerate_fuel dot_get f1 path obj = enumerate_fuel dot_get f2 path obj.
Proof.
  revert f2 path. induction f1 as [| f1 IH]; intros f2 path H1 H2; [lia |].
  destruct f2 as [| f2]; [lia |]. simpl.
  destruct (split_wildcard path) as [| first [| part parts]] eqn:Hsplit;
    try reflexivity.
  destruct (dot_get obj first); try reflexivity.
  apply flat_map_ext. intros i.
  destruct (dollars_next path first part parts i Hsplit) as [_ Hd].
  apply IH; lia.
Qed.

Lemma enumerate_unfold (path : string) (obj : jsval) :
  enumerate dot_get path obj
  = match split_wildcard path with
    | [] => []
    | [first] => [(first, dot_get obj first)]
    | first :: parts =>
        match dot_get obj first with
        | VArr xs =>
            flat_map
              (fun i =>
                 enumerate dot_get
                   (acc_str (join (ANum i) (AStr first))
                    ++ join_with ".$" parts)%string obj)
              (seq 0 (List.length xs))
        | _ => []
        end
    end.
Proof.
  unfold enumerate at 1. simpl.
  destruct (split_wildcard path) as [| first [| part parts]] eqn:Hsplit;
    try reflexivity.
  destruct (dot_get obj first); try reflexivity.
  apply flat_map_ext. intros i.
  destruct (dollars_next path first part parts i Hsplit) as [_ Hd].
  apply enumerate_fuel_enough; lia.
Qed.

End EnumerateFacts.

(** C8.  [enumerate] splits the path at its wildcard segments (the dollar
    segments after the first segment).  On a path without wildcard segment
    it calls the callback once, with the path and the value found at it.
    On a path [first.$rest] it looks at the value found at [first]: when
    that is not an array it makes no call; when it is an array of n
    elements it enumerates, for i from 0 to n-1 in turn, the path in which
    the index i stands for the dollar sign. *)
Theorem enumerate_expands_wildcards
  (dot_get : jsval -> string -> jsval) (path : string) (obj : jsval) :
  List.length (split_wildcard path) = S (wildcards path)
  /\ (wildcards path = 0%nat ->
      enumerate dot_get path obj = [(path, dot_get obj path)])
  /\ (forall first,
      split_wildcard path = [first] ->
      first = path
      /\ enumerate dot_get path obj = [(path, dot_get obj path)])
  /\ (forall first part parts,
      split_wildcard path = first :: part :: parts ->
      let rest := join_with ".$" (part :: parts) in
      path = (first ++ ".$" ++ rest)%string
      /\ (is_array (dot_get obj first) = false ->
          enumerate dot_get path obj = [])
      /\ (forall xs,
            dot_get obj first = VArr xs ->
            enumerate dot_get path obj
            = flat_map
                (fun i =>
                   enumerate dot_get
                     (acc_str (join (ANum i) (AStr first)) ++ rest)%string obj)
                (seq 0 (List.length xs)))
      /\ (forall i, first <> "" ->
            acc_str (join (ANum i) (AStr first))
            = (first ++ "." ++ dec i)%string)).
Proof.
  split; [apply split_wildcard_parts |].
  split.
  { intros H0%no_wildcard_single_part.
    rewrite enumerate_unfold, H0. reflexivity. }
  split.
  - intros first Hsplit.
    assert (first = path) as ->.
    { rewrite <- (join_split_wildcard path), Hsplit. reflexivity. }
    split; [reflexivity |]. rewrite enumerate_unfold, Hsplit. reflexivity.
  - intros first part parts Hsplit rest.
    split; [apply (dollars_next path first part parts 0 Hsplit) |].
    split; [| split].
    + intros Harr. rewrite enumerate_unfold, Hsplit.
      destruct (dot_get obj first); try reflexivity. discriminate.
    + intros xs Hxs. rewrite enumerate_unfold, Hsplit, Hxs. reflexivity.
    + intros i Hne. unfold join; simpl.
      destruct (String.eqb_spec first ""); [contradiction | reflexivity].
Qed.

Lemma enumerate_expands_wildcards_witness :
  enumerate sample_dot_get "title" sample_object = [("title", VStr "x")]
  /\ enumerate sample_dot_get "title.$.name" sample_object = []
  /\ enumerate sample_dot_get "pets.$.name" sample_object
     = [("pets.0.name", VStr "a"); ("pets.1.name", VStr "b")].
Proof.
  split; [| split].
  - exact (proj1 (proj2 (enumerate_expands_wildcards sample_dot_get "title"
                           sample_object)) eq_refl).
  - destruct (enumerate_expands_wildcards sample_dot_get "title.$.name"
                sample_object) as (_ & _ & _ & H).
    exact (proj1 (proj2 (H "title" ".name" [] eq_refl)) eq_refl).
  - destruct (enumerate_expands_wildcards sample_dot_get "pets.$.name"
                sample_object) as (_ & _ & _ & H).
    exact (proj1 (proj2 (proj2 (H "pets" ".name" [] eq_refl))) _ eq_refl).
Defined.

(** ** The tree walker *)

(** Induction on a value, with the property at hand for the elements of an
    array and for the values of the entries of an object. *)
Lemma jsval_nested_ind (P : jsval -> Prop) :
  P VUndefined -> P VNull -> (forall b, P (VBool b)) -> (forall n, P (VNum n)) ->
  (forall s, P (VStr s)) -> (forall f, P (VFun f)) -> (forall t, P (VDate t)) ->
  (forall src, P (VRegExp src)) ->
  (forall xs, Forall P xs -> P (VArr xs)) ->
  (forall c ps, Forall (fun kv => P kv.2) ps -> P (VObj c ps)) ->
  forall v, P v.
Proof.
  intros Hu Hn Hb Hz Hs Hf Hd Hr Harr Hobj. fix IH 1.
  intros [| | b | n | s | f | t | src | xs | c ps].
  - exact Hu.
  - exact Hn.
  - apply Hb.
  - apply Hz.
  - apply Hs.
  - apply Hf.
  - apply Hd.
  - apply Hr.
  - apply Harr. revert xs. fix IHxs 1.
    intros [| x xs]; constructor; [apply IH | apply IHxs].
  - apply Hobj. revert ps. fix IHps 1.
    intros [| [k x] ps]; constructor; [apply IH | apply IHps].
Qed.

Section WalkFacts.

Context {St : Type}.
Variable callback : acc -> acc -> St -> bool * St.

Local Abbreviation walk_element := (walk_element callback).
Local Abbreviation walk_entry := (walk_entry callback).

Lemma walk_array (xs : list jsval) (path prop : acc) (st : St) :
  walk callback (VArr xs) path prop st
  = foldl (walk_element path prop) st (zip (seq 0 (List.length xs)) xs).
Proof.
  cbn [walk typeOf String.eqb Ascii.eqb Bool.eqb].
  generalize 0%nat. revert st.
  induction xs as [| v xs IH]; intros st i; [reflexivity |].
  cbn [List.length seq zip zip_with foldl]. rewrite IH. reflexivity.
Qed.

Lemma walk_object (c : funref) (ps : list (string * jsval))
  (path prop : acc) (st : St) :
  typeOf (VObj c ps) = "object" ->
  walk callback (VObj c ps) path prop st = foldl (walk_entry path prop) st ps.
Proof.
  intros Htype. cbn [walk]. rewrite Htype.
  cbn [String.eqb Ascii.eqb Bool.eqb negb]. clear Htype.
  revert st. induction ps as [| [key val] ps IH]; intros st; [reflexivity |].
  cbn [foldl]. rewrite <- IH. unfold walk_entry; simpl.
  destruct (callback _ _ st) as [[|] st1]; reflexivity.
Qed.

Lemma walk_leaf (obj : jsval) (path prop : acc) (st : St) :
  typeOf obj <> "array" -> typeOf obj <> "object" ->
  walk callback obj path prop st = st.
Proof.
  intros Harr Hobj. destruct obj; try reflexivity.
  - exfalso. apply Harr. reflexivity.
  - cbn [walk]. destruct (typeOf (VObj c props)) eqn:E; [reflexivity |].
    revert E Hobj. unfold typeOf.
    destruct (strict_eq _ _); intros [= <- <-] Hobj;
      [reflexivity | contradiction].
Qed.

End WalkFacts.

Lemma elem_of_flat_map {A B} (f : A -> list B) (l : list A) (y : B) :
  y ∈ flat_map f l <-> exists x, x ∈ l /\ y ∈ f x.
Proof.
  induction l as [| a l IH]; cbn [flat_map].
  - split; [intros H; apply elem_of_nil in H; contradiction |].
    intros (x & H & _). apply elem_of_nil in H. contradiction.
  - rewrite elem_of_app, IH. split.
    + intros [H | (x & Hx & Hy)]; [exists a; split; [left | exact H] |].
      exists x. split; [right; exact Hx | exact Hy].
    + intros (x & [-> | Hx]%elem_of_cons & Hy); [left; exact Hy |].
      right. exists x. split; assumption.
Qed.

Lemma elem_of_zip_seq {A} (xs : list A) (j i : nat) (v : A) :
  (i, v) ∈ zip (seq j (List.length xs)) xs
  <-> (j <= i)%nat /\ xs !! (i - j)%nat = Some v.
Proof.
  revert j. induction xs as [| x xs IH]; intros j;
    cbn [List.length seq zip zip_with].
  - split; [intros H; apply elem_of_nil in H; contradiction |].
    intros [_ H]. discriminate H.
  - rewrite elem_of_cons, IH. split.
    + intros [[= -> ->] | [Hle Hv]].
      * split; [lia |]. rewrite Nat.sub_diag. reflexivity.
      * split; [lia |]. replace (i - j)%nat with (S (i - S j)) by lia.
        exact Hv.
    + intros [Hle Hv]. destruct (decide (i = j)) as [-> | Hne].
      * left. rewrite Nat.sub_diag in Hv. injection Hv as ->. reflexivity.
      * right. split; [lia |].
        replace (i - j)%nat with (S (i - S j)) in Hv by lia. exact Hv.
Qed.

Lemma foldl_flat_map {S A X} (f : S -> X -> S) (h : S -> A -> S)
  (g : X -> list A) (l : list X) (st : S) :
  (forall x, x ∈ l -> forall s, f s x = foldl h s (g x)) ->
  foldl f st l = foldl h st (flat_map g l).
Proof.
  revert st. induction l as [| x l IH]; intros st Hf; cbn [foldl flat_map].
  - reflexivity.
  - rewrite foldl_app, (Hf x) by left. apply IH.
    intros y Hy. apply Hf. right. exact Hy.
Qed.

Lemma foldl_appends {A X} (f : list A -> X -> list A) (g : X -> list A)
  (l : list X) (st : list A) :
  (forall x, x ∈ l -> forall s, f s x = s ++ g x) ->
  foldl f st l = st ++ flat_map g l.
Proof.
  revert st. induction l as [| x l IH]; intros st Hf; cbn [foldl flat_map].
  - rewrite app_nil_r. reflexivity.
  - rewrite (Hf x) by left. rewrite IH.
    + rewrite app_assoc. reflexivity.
    + intros y Hy. apply Hf. right. exact Hy.
Qed.

Section WalkCalls.

Variable go : acc -> acc -> bool.

(** What one element of an array and one entry of an object add to the
    calls. *)
Local Abbreviation of_element path prop :=
  (fun iv : nat * jsval =>
     walk_calls go iv.2 (join (ANum iv.1) path) (join (AStr "$") prop)).

Local Abbreviation of_entry path prop :=
  (fun kv : string * jsval =>
     (join (AStr kv.1) path, join (AStr kv.1) prop)
     :: (if go (join (AStr kv.1) path) (join (AStr kv.1) prop)
         then walk_calls go kv.2 (join (AStr kv.1) path) (join (AStr kv.1) prop)
         else [])).

Lemma walk_entry_recording (path prop : acc) (kv : string * jsval)
  (s : list (acc * acc)) :
  (forall p q st, walk (recording go) kv.2 p q st
                  = st ++ walk_calls go kv.2 p q) ->
  walk_entry (recording go) path prop s kv = s ++ of_entry path prop kv.
Proof.
  intros Hwalk. unfold walk_entry, recording.
  destruct (go (join (AStr kv.1) path) (join (AStr kv.1) prop)).
  - rewrite Hwalk, <- app_assoc. reflexivity.
  - reflexivity.
Qed.

(** The walk adds its calls to those that were made before. *)
Lemma walk_recording (obj : jsval) :
  forall path prop st,
    walk (recording go) obj path prop st = st ++ walk_calls go obj path prop.
Proof.
  induction obj as [| | b | n | s | f | t | src | xs IHxs | c ps IHps]
    using jsval_nested_ind; intros path prop st; unfold walk_calls;
    try (rewrite !walk_leaf by discriminate; rewrite app_nil_r; reflexivity).
  - rewrite !walk_array. rewrite Forall_forall in IHxs.
    assert (Hf : forall iv, iv ∈ zip (seq 0 (List.length xs)) xs ->
                 forall s, walk_element (recording go) path prop s iv
                           = s ++ of_element path prop iv).
    { intros [i v] Hin s. apply elem_of_zip_r in Hin.
      unfold walk_element. apply IHxs. exact Hin. }
    rewrite !(foldl_appends _ _ _ _ Hf). reflexivity.
  - destruct (String.eqb_spec (typeOf (VObj c ps)) "object") as [Hobj | Hobj].
    + rewrite !walk_object by exact Hobj. rewrite Forall_forall in IHps.
      assert (Hf : forall kv, kv ∈ ps ->
                   forall s, walk_entry (recording go) path prop s kv
                             = s ++ of_entry path prop kv).
      { intros kv Hin s. apply walk_entry_recording. apply IHps. exact Hin. }
      rewrite !(foldl_appends _ _ _ _ Hf). reflexivity.
    + assert (Harr : typeOf (VObj c ps) <> "array")
        by (unfold typeOf; destruct (strict_eq _ _); discriminate).
      rewrite !walk_leaf by assumption. rewrite app_nil_r. reflexivity.
Qed.

(** The calls in order: those of the elements of an array, one element
    after the other; for each entry of an object in turn, the call on the
    entry, followed at once by the calls below it when [go] allows. *)
Lemma walk_calls_array (xs : list jsval) (path prop : acc) :
  walk_calls go (VArr xs) path prop
  = flat_map (of_element path prop) (zip (seq 0 (List.length xs)) xs).
Proof.
  unfold walk_calls at 1. rewrite walk_array.
  rewrite (foldl_appends _ (of_element path prop)); [reflexivity |].
  intros [i v] _ s. unfold walk_element. apply walk_recording.
Qed.

Lemma walk_calls_object (c : funref) (ps : list (string * jsval))
  (path prop : acc) :
  typeOf (VObj c ps) = "object" ->
  walk_calls go (VObj c ps) path prop = flat_map (of_entry path prop) ps.
Proof.
  intros Hobj. unfold walk_calls at 1. rewrite walk_object by exact Hobj.
  rewrite (foldl_appends _ (of_entry path prop)); [reflexivity |].
  intros kv _ s. apply walk_entry_recording. apply walk_recording.
Qed.

Lemma walk_calls_leaf (obj : jsval) (path prop : acc) :
  typeOf obj <> "array" -> typeOf obj <> "object" ->
  walk_calls go obj path prop = [].
Proof. intros Harr Hobj. apply walk_leaf; assumption. Qed.

Lemma walks_to_trans (root v w : jsval) (p0 q0 p q p' q' : acc) :
  walks_to go root p0 q0 v p q ->
  walks_to go v p q w p' q' ->
  walks_to go root p0 q0 w p' q'.
Proof.
  intros Hv Hw. induction Hw as [| xs i x path prop _ IH Hx
                                 | c ps key val path prop _ IH Hobj Hin Hgo].
  - exact Hv.
  - eapply walks_to_element; [exact IH | exact Hx].
  - eapply walks_to_entry; [exact IH | exact Hobj | exact Hin | exact Hgo].
Qed.

Lemma called_on_below (root v : jsval) (p0 q0 p q : acc) (pq : acc * acc) :
  walks_to go root p0 q0 v p q ->
  called_on go v p q pq -> called_on go root p0 q0 pq.
Proof.
  intros Hv (c & ps & path & prop & key & val & Hw & Hobj & Hin & ->).
  exists c, ps, path, prop, key, val.
  split; [eapply walks_to_trans; eassumption |].
  split; [exact Hobj | split; [exact Hin | reflexivity]].
Qed.

(** Every call is on an entry of an object that the walk comes to. *)
Lemma walk_calls_called (obj : jsval) :
  forall path prop pq,
    pq ∈ walk_calls go obj path prop -> called_on go obj path prop pq.
Proof.
  induction obj as [| | b | n | s | f | t | src | xs IHxs | c ps IHps]
    using jsval_nested_ind; intros path prop pq;
    try (rewrite walk_calls_leaf by discriminate;
         intros H; apply elem_of_nil in H; contradiction).
  - rewrite walk_calls_array, elem_of_flat_map.
    intros ([i v] & Hin & Hpq). cbn [fst snd] in Hpq.
    apply elem_of_zip_seq in Hin as [_ Hv]. rewrite Nat.sub_0_r in Hv.
    rewrite Forall_forall in IHxs.
    apply (called_on_below _ v _ _ (join (ANum i) path) (join (AStr "$") prop)).
    + eapply walks_to_element; [apply walks_to_root | exact Hv].
    + apply IHxs; [eapply list_elem_of_lookup_2; exact Hv | exact Hpq].
  - destruct (String.eqb_spec (typeOf (VObj c ps)) "object") as [Hobj | Hobj].
    + rewrite walk_calls_object by exact Hobj. rewrite elem_of_flat_map.
      intros ([key val] & Hin & Hpq). cbn [fst snd] in Hpq.
      apply elem_of_cons in Hpq as [-> | Hpq].
      * exists c, ps, path, prop, key, val.
        split; [apply walks_to_root |].
        split; [exact Hobj | split; [exact Hin | reflexivity]].
      * destruct (go (join (AStr key) path) (join (AStr key) prop)) eqn:Hgo;
          [| apply elem_of_nil in Hpq; contradiction].
        rewrite Forall_forall in IHps.
        apply (called_on_below _ val _ _ (join (AStr key) path)
                 (join (AStr key) prop)).
        -- eapply walks_to_entry;
             [apply walks_to_root | exact Hobj | exact Hin | exact Hgo].
        -- apply (IHps (key, val) Hin). exact Hpq.
    + rewrite walk_calls_leaf; [| | exact Hobj].
      * intros H. apply elem_of_nil in H. contradiction.
      * unfold typeOf. destruct (strict_eq _ _); discriminate.
Qed.

(** The calls made below a node that the walk comes to are calls of the
    walk. *)
Lemma walks_to_calls (root v : jsval) (p0 q0 p q : acc) :
  walks_to go root p0 q0 v p q ->
  forall pq, pq ∈ walk_calls go v p q -> pq ∈ walk_calls go root p0 q0.
Proof.
  intros Hv. induction Hv as [| xs i x path prop _ IH Hx
                              | c ps key val path prop _ IH Hobj Hin Hgo];
    intros pq Hpq.
  - exact Hpq.
  - apply IH. rewrite walk_calls_array, elem_of_flat_map.
    exists (i, x). split; [| exact Hpq].
    apply elem_of_zip_seq. split; [lia |]. rewrite Nat.sub_0_r. exact Hx.
  - apply IH. rewrite walk_calls_object by exact Hobj.
    rewrite elem_of_flat_map. exists (key, val). split; [exact Hin |].
    cbn [fst snd]. rewrite Hgo. right. exact Hpq.
Qed.

Lemma called_walk_calls (root : jsval) (p0 q0 : acc) (pq : acc * acc) :
  called_on go root p0 q0 pq -> pq ∈ walk_calls go root p0 q0.
Proof.
  intros (c & ps & path & prop & key & val & Hw & Hobj & Hin & ->).
  apply (walks_to_calls _ _ _ _ _ _ Hw).
  rewrite walk_calls_object by exact Hobj. rewrite elem_of_flat_map.
  exists (key, val). split; [exact Hin | left].
Qed.

(** A callback with a state of its own whose answers are those of [go]
    goes through the same calls, in the same order: its state after the
    walk is its state after these calls. *)
Lemma walk_through_calls {St : Type}
  (callback : acc -> acc -> St -> bool * St) (obj : jsval) :
  (forall p q s, (callback p q s).1 = go p q) ->
  forall path prop st,
    walk callback obj path prop st
    = foldl (fun s pq => (callback pq.1 pq.2 s).2) st
        (walk_calls go obj path prop).
Proof.
  intros Hgo.
  induction obj as [| | b | n | s | f | t | src | xs IHxs | c ps IHps]
    using jsval_nested_ind; intros path prop st;
    try (rewrite walk_calls_leaf, walk_leaf by discriminate; reflexivity).
  - rewrite walk_array, walk_calls_array. rewrite Forall_forall in IHxs.
    apply foldl_flat_map. intros [i v] Hin s0. apply elem_of_zip_r in Hin.
    unfold walk_element. apply IHxs. exact Hin.
  - destruct (String.eqb_spec (typeOf (VObj c ps)) "object") as [Hobj | Hobj].
    + rewrite walk_object, walk_calls_object by exact Hobj.
      rewrite Forall_forall in IHps.
      apply foldl_flat_map. intros [key val] Hin s0.
      unfold walk_entry. cbn [fst snd foldl].
      rewrite <- (Hgo (join (AStr key) path) (join (AStr key) prop) s0).
      destruct (callback (join (AStr key) path) (join (AStr key) prop) s0)
        as [[|] s1]; cbn [fst snd]; [| reflexivity].
      apply (IHps (key, val) Hin).
    + assert (Harr : typeOf (VObj c ps) <> "array")
        by (unfold typeOf; destruct (strict_eq _ _); discriminate).
      rewrite walk_calls_leaf, walk_leaf by assumption. reflexivity.
Qed.

End WalkCalls.

(** C9.  [walk] goes through a value depth first.  It comes to every
    element of an array that it comes to, joining the index to the path and
    a dollar sign to the property name, without calling the callback on
    the element.  In an object that it comes to, it joins the key of each
    entry to both, calls the callback on the two results, and comes to the
    value of the entry exactly when the callback answers true.  The
    callback is called on the entries of the objects that the walk comes
    to, and on nothing else; the calls are made in the order of the
    elements and of the entries, those below an entry right after the call
    on the entry.  On a value that is neither an array nor an object the
    walk does nothing.  This is stated for the callbacks whose answer
    depends on the path and the property name only, [go] being the answer:
    such a callback, whatever state it keeps, receives the calls
    [walk_calls], in order. *)
Theorem walk_follows_callback (go : acc -> acc -> bool)
  (obj : jsval) (path prop : acc) (st : list (acc * acc)) :
  walk (recording go) obj path prop st = st ++ walk_calls go obj path prop
  /\ (forall (St : Type) (callback : acc -> acc -> St -> bool * St) (s : St),
        (forall p q s', (callback p q s').1 = go p q) ->
        walk callback obj path prop s
        = foldl (fun s' pq => (callback pq.1 pq.2 s').2) s
            (walk_calls go obj path prop))
  /\ (forall pq,
        pq ∈ walk_calls go obj path prop <-> called_on go obj path prop pq)
  /\ (forall xs, obj = VArr xs ->
      walk_calls go obj path prop
      = flat_map
          (fun iv =>
             walk_calls go iv.2 (join (ANum iv.1) path) (join (AStr "$") prop))
          (zip (seq 0 (List.length xs)) xs))
  /\ (forall c ps, obj = VObj c ps -> typeOf obj = "object" ->
      walk_calls go obj path prop
      = flat_map
          (fun kv =>
             let newPath := join (AStr kv.1) path in
             let newProp := join (AStr kv.1) prop in
             (newPath, newProp)
             :: (if go newPath newProp
                 then walk_calls go kv.2 newPath newProp
                 else []))
          ps)
  /\ (typeOf obj <> "array" -> typeOf obj <> "object" ->
      walk_calls go obj path prop = []).
Proof.
  split; [apply walk_recording |].
  split; [| split; [| split; [| split]]].
  - intros St callback s Hgo. apply walk_through_calls. exact Hgo.
  - intros pq. split; [apply walk_calls_called | apply called_walk_calls].
  - intros xs ->. apply walk_calls_array.
  - intros c ps -> Hobj. apply walk_calls_object. exact Hobj.
  - apply walk_calls_leaf.
Qed.

(** C9, as stated, fails on arrays: the callback is not called on the
    elements of an array, and the walk goes below them whatever the
    callback answers.  With a callback that never answers true, the walk
    of [[[{b: {c: 1}}]]] gets through the two arrays and calls the callback
    on [b]; with one that always answers true, the walk of
    [{a: [[{b: 1}]]}] makes no call on [a.0] nor on [a.0.0]. *)
Lemma walk_array_elements_not_called :
  walk_calls (fun _ _ => false) nested_arrays AUndef AUndef
  = [(AStr "b", AStr "$.$.b")]
  /\ walk_calling_at_every_node (fun _ _ => false) nested_arrays AUndef AUndef
     = [(ANum 0, AStr "$")]
  /\ walk_calls (fun _ _ => true) arrays_in_object AUndef AUndef
     = [(AStr "a", AStr "a"); (AStr "a.0.0.b", AStr "a.$.$.b")]
  /\ walk_calling_at_every_node (fun _ _ => true) arrays_in_object
       AUndef AUndef
     = [(AStr "a", AStr "a"); (AStr "a.0", AStr "a.$");
        (AStr "a.0.0", AStr "a.$.$"); (AStr "a.0.0.b", AStr "a.$.$.b")].
Proof. repeat split. Qed.

Lemma walk_follows_callback_witness :
  walk (recording except_secret) walked_object AUndef AUndef []
  = [(AStr "tags", AStr "tags");
     (AStr "tags.0.id", AStr "tags.$.id");
     (AStr "tags.1.id", AStr "tags.$.id");
     (AStr "secret", AStr "secret");
     (AStr "n", AStr "n")]
  /\ called_on except_secret walked_object AUndef AUndef
       (AStr "tags.1.id", AStr "tags.$.id").
Proof.
  pose proof (walk_follows_callback except_secret walked_object
                AUndef AUndef []) as (H1 & _ & H2 & _).
  split.
  - rewrite H1. reflexivity.
  - apply H2. vm_compute. right. right. left.
Defined.

(** ** Remarks *)

(** The keys of a registry stay distinct under every registration, so the
    registries met by [validate] satisfy the first hypothesis of
    [validate_first_failure_wins]. *)
Lemma new_registry_NoDup (name : string) :
  NoDup (map fst (Property.registry (Property.new name))).
Proof. apply NoDup_nil. exact I. Qed.

Lemma chain_registry_NoDup (c : chain_call) (ps : Property.t * list (list jsval)) :
  NoDup (map fst (Property.registry ps.1)) ->
  NoDup (map fst (Property.registry (chain c ps).1)).
Proof.
  intros Hnd. destruct (chain_registry c ps) as (a & f & q & -> & Hreg & _).
  cbn [Property._register Property.registry].
  apply NoDup_keys_obj_set. rewrite Hreg. exact Hnd.
Qed.

Lemma use_registry_NoDup (fns : list (string * Property.use_arg))
  (ps : Property.t * list (list jsval)) :
  NoDup (map fst (Property.registry ps.1)) ->
  NoDup (map fst (Property.registry (Property.use fns ps).1)).
Proof.
  unfold Property.use. revert ps.
  induction (own_keys fns) as [| k ks IH]; intros ps Hnd; [exact Hnd |].
  simpl. apply IH. unfold Property.use_step.
  destruct (lookup_prop k fns) as [arr |]; [| exact Hnd].
  destruct ps as [p σ]. destruct arr; simpl; apply NoDup_keys_obj_set; exact Hnd.
Qed.

(** The names of the built-in rules are not array indices. *)
Lemma builtin_rule_names_not_indices :
  Forall (fun k => array_index k = None)
    ["required"; "type"; "length"; "size"; "enum"; "match"].
Proof. repeat constructor. Qed.

(** A rule registered under the name [__proto__] is no key of the
    registry: [validate] does not run it, although [_run] under that name
    does (and takes for its message what the messages hold under that
    name, which is [Object.prototype]).  Under the name of a method of
    [Object.prototype], [_run] finds the method in the registry, which has
    no arguments to spread. *)
Example proto_rule_is_not_validated :
  let ps := Property.use [("__proto__", Property.UVal (VFun (FUser "no" 0 2)))]
              (Property.new "x", []) in
  own_keys (Property.registry ps.1) = []
  /\ Property.validate sample_call ps.1 sample_schema ps.2 (VNum 1) VNull None
     = ([], Ok None)
  /\ Property._run sample_call ps.1 sample_schema ps.2 "__proto__"
       (VNum 1) VNull "x"
     = ([Property.mkInvocation "__proto__" (FUser "no" 0 2)
           [VNum 1; VNull; VStr "x"]],
        Ok (Some (ValidationError.mk object_prototype "x")))
  /\ Property._run sample_call ps.1 sample_schema ps.2 "toString"
       (VNum 1) VNull "x"
     = ([], Err TypeError)
  /\ Property._run sample_call ps.1 sample_schema ps.2 "missing"
       (VNum 1) VNull "x"
     = ([], Ok None).
Proof. repeat split. Qed.

(** [walk] on an array at the top level: the path of the first element is
    the number 0, which [join] takes for an absent prefix, so that the
    keys below the first element come without their index. *)
Example walk_top_level_array :
  walk log_callback
    (VArr [VObj FObject [("id", VNum 1)]; VObj FObject [("id", VNum 2)]])
    AUndef AUndef []
  = [(AStr "id", AStr "$.id"); (AStr "1.id", AStr "$.id")].
Proof. reflexivity. Qed.

(** * Further properties of the code *)

(** ** Built-in validators and their messages *)

Lemma strict_eq_false_arg (r : jsval) :
  r <> VBool false -> strict_eq r (VBool false) = false.
Proof.
  intros Hr. destruct (strict_eq r (VBool false)) eqn:E; [| reflexivity].
  apply strict_eq_bool in E. contradiction.
Qed.

(** X1.  Only the boolean [false] switches [required] off: with any other
    argument (0, null, the empty string, the string 'false') the validator
    behaves as with [true].  The method [required] called without argument
    registers the argument [true]. *)
Theorem required_only_false_disables (v ctx r : jsval)
  (ps : Property.t * list (list jsval)) :
  r <> VBool false ->
  Validators.required v ctx r = Validators.required v ctx (VBool true)
  /\ Property.required VUndefined ps = Property.required (VBool true) ps.
Proof.
  intros Hr. split; [| reflexivity].
  unfold Validators.required. rewrite (strict_eq_false_arg r Hr). reflexivity.
Qed.

Lemma required_only_false_disables_witness :
  Validators.required VNull VNull (VNum 0) = false
  /\ Validators.required (VStr "x") VNull VNull = true.
Proof.
  split.
  - exact (proj1 (required_only_false_disables VNull VNull (VNum 0)
                    (Property.new "a", []) ltac:(discriminate))).
  - exact (proj1 (required_only_false_disables (VStr "x") VNull VNull
                    (Property.new "a", []) ltac:(discriminate))).
Defined.

Lemma strict_eq_sound (v x : jsval) :
  has_identity_free v -> (strict_eq v x = true <-> v = x).
Proof.
  unfold has_identity_free. intros Hv.
  destruct v; try discriminate Hv; destruct x; simpl;
    try (split; [discriminate | discriminate]); try (split; reflexivity).
  - rewrite Bool.eqb_true_iff. split; [intros -> | intros [= ->]]; reflexivity.
  - rewrite Z.eqb_eq. split; [intros -> | intros [= ->]]; reflexivity.
  - rewrite String.eqb_eq. split; [intros -> | intros [= ->]]; reflexivity.
  - rewrite bool_decide_eq_true. split; [intros -> | intros [= ->]]; reflexivity.
Qed.

Lemma existsb_strict_eq (v : jsval) (xs : list jsval) :
  has_identity_free v -> (existsb (strict_eq v) xs = true <-> v ∈ xs).
Proof.
  intros Hv. induction xs as [| x xs IH]; simpl.
  - split; [discriminate | intros H; apply elem_of_nil in H; contradiction].
  - rewrite orb_true_iff, IH, (strict_eq_sound v x Hv), elem_of_cons.
    reflexivity.
Qed.

(** X2.  On a list of allowed values, [enum] passes a primitive value or a
    function exactly when the value is absent (null or undefined) or is
    one of the elements of the list; it never throws there. *)
Theorem enum_passes_members (v ctx : jsval) (xs : list jsval) :
  has_identity_free v ->
  exists b, Validators.enum v ctx (VArr xs) = Ok b
            /\ (b = true <-> is_nullish v = true \/ v ∈ xs).
Proof.
  intros Hv. unfold Validators.enum, Validators.includes.
  destruct (is_nullish v) eqn:Hn.
  - exists true. split; [reflexivity |]. split; auto.
  - unfold has_identity_free in Hv. rewrite Hv.
    eexists; split; [reflexivity |].
    rewrite (existsb_strict_eq v xs Hv). split; [auto |].
    intros [H | H]; [discriminate | exact H].
Qed.

Lemma enum_passes_members_witness :
  Validators.enum (VStr "dog") VNull (VArr [VStr "cat"; VStr "dog"]) = Ok true
  /\ Validators.enum (VStr "cow") VNull (VArr [VStr "cat"; VStr "dog"]) = Ok false.
Proof.
  split.
  - destruct (enum_passes_members (VStr "dog") VNull
                [VStr "cat"; VStr "dog"] eq_refl) as (b & Hb & Hiff).
    rewrite Hb. f_equal. apply Hiff. right. right. left.
  - destruct (enum_passes_members (VStr "cow") VNull
                [VStr "cat"; VStr "dog"] eq_refl) as (b & Hb & Hiff).
    rewrite Hb. f_equal. destruct b; [| reflexivity].
    destruct (proj1 Hiff eq_refl) as [H | H]; [discriminate H |].
    apply elem_of_cons in H as [[=] | H].
    apply elem_of_cons in H as [[=] | H].
    apply elem_of_nil in H. contradiction.
Defined.



Lemma js_lt_undefined_r (v : jsval) (b : bool) :
  js_lt v VUndefined = Ok b -> b = false.
Proof.
  unfold js_lt. destruct v; simpl; try discriminate;
    intros [= <-]; reflexivity.
Qed.

(** X4.  Whenever [length] or [size] rejects a value under a number or
    under an object of numeric bounds, the default message of that rule is
    a string: the messages come out undefined only for arguments under
    which the validators accept every value. *)
Theorem bound_failure_has_message (v ctx len : jsval) (path : string) :
  (exists n, len = VNum n) \/ (exists min max, len = range_arg min max) ->
  (Validators.length v ctx len = Ok false ->
     exists s, Messages.length (VStr path) ctx len = Ok (VStr s))
  /\ (Validators.size v ctx len = Ok false ->
      exists s, Messages.size (VStr path) ctx len = Ok (VStr s)).
Proof.
  intros [[n ->] | (min & max & ->)].
  - split; intros _; eexists; reflexivity.
  - split.
    + unfold Validators.length, Messages.length, destructure_min_max.
      destruct (is_nullish v); [discriminate |].
      cbn [is_number range_arg is_nullish res_bind].
      rewrite range_arg_min, range_arg_max.
      destruct min as [lo |], max as [hi |]; cbn;
        repeat match goal with
        | |- context [?a =? 0] => destruct (Z.eqb_spec a 0); cbn
        end;
        try (intros _; eexists; reflexivity); discriminate.
    + unfold Validators.size, Messages.size, destructure_min_max.
      destruct (is_nullish v); [discriminate |].
      cbn [is_number range_arg is_nullish res_bind].
      rewrite range_arg_min, range_arg_max.
      destruct min as [lo |], max as [hi |]; cbn [strict_eq negb andb];
        try (intros _; eexists; reflexivity).
      unfold Validators.parseInt_neq_null, js_gt.
      destruct (js_lt v VUndefined) as [b |] eqn:E1; cbn; [| discriminate].
      apply js_lt_undefined_r in E1. subst b. cbn.
      destruct (to_number v); cbn; discriminate.
Qed.

Lemma bound_failure_has_message_witness :
  (exists s, Messages.length (VStr "username") VNull
               (range_arg (Some 3) (Some 5)) = Ok (VStr s))
  /\ (exists s, Messages.size (VStr "age") VNull
                  (range_arg (Some 18) None) = Ok (VStr s)).
Proof.
  split.
  - apply (proj1 (bound_failure_has_message (VStr "ab") VNull
                    (range_arg (Some 3) (Some 5)) "username"
                    (or_intror (ex_intro _ (Some 3)
                                  (ex_intro _ (Some 5) eq_refl))))).
    reflexivity.
  - apply (proj2 (bound_failure_has_message (VNum 7) VNull
                    (range_arg (Some 18) None) "age"
                    (or_intror (ex_intro _ (Some 18)
                                  (ex_intro _ None eq_refl))))).
    reflexivity.
Defined.

(** ** Assignment into a registry *)

Lemma insert_all_lookup (f : string -> jsval) (ks : list string)
  (o : gmap string jsval) (k : string) :
  foldl (fun o kv => <[kv.1 := kv.2]> o) o (map (fun k => (k, f k)) ks) !! k
  = if bool_decide (k ∈ ks) then Some (f k) else o !! k.
Proof.
  revert o. induction ks as [| x ks IH]; intros o; [reflexivity |].
  cbn [map foldl]. rewrite IH. cbn [fst snd].
  destruct (decide (k ∈ ks)) as [Hin | Hnin].
  - rewrite !bool_decide_eq_true_2; [reflexivity | right; exact Hin | exact Hin].
  - rewrite (bool_decide_eq_false_2 (k ∈ ks)) by exact Hnin.
    destruct (decide (k = x)) as [-> | Hne].
    + rewrite lookup_insert_eq, bool_decide_eq_true_2 by left. reflexivity.
    + rewrite lookup_insert_ne by congruence.
      rewrite bool_decide_eq_false_2; [reflexivity |].
      intros [? | ?]%elem_of_cons; contradiction.
Qed.

Lemma plain_set_named (k : string) (v : jsval) (m : gmap string jsval) :
  k <> "__proto__" -> plain_set k v m = Ok (<[k := v]> m).
Proof.
  intros Hk. unfold plain_set. destruct (m !! k); [reflexivity |].
  destruct (String.eqb_spec k "__proto__"); [contradiction | reflexivity].
Qed.

Lemma plain_set_all_named (entries : list (string * jsval))
  (m : gmap string jsval) :
  "__proto__" ∉ map fst entries ->
  plain_set_all entries m
  = Ok (foldl (fun o kv => <[kv.1 := kv.2]> o) m entries).
Proof.
  unfold plain_set_all. revert m.
  induction entries as [| [k v] entries IH]; intros m Hk; [reflexivity |].
  cbn [foldl res_bind fst snd]. rewrite plain_set_named.
  - apply IH. intros H. apply Hk. right. exact H.
  - intros ->. apply Hk. left.
Qed.

(** X5.  [assign] with a string key other than [__proto__] sets that one
    key; with an object it copies every own property of the object over the
    registry, whatever the second argument is, and leaves the other keys as
    they were; with null or undefined in place of the key it throws.  Under
    the key [__proto__] a primitive value is dropped: the registry is left
    as it was, without a key of that name. *)
Theorem assign_merges (key val : jsval) (obj : gmap string jsval) (k : string) :
  (forall name, key = VStr name -> name <> "__proto__" ->
     exists o, assign key val obj = Ok o
               /\ tbl_get o name = val
               /\ (k <> name -> tbl_get o k = tbl_get obj k))
  /\ (key = VStr "__proto__" -> obj !! "__proto__" = None ->
      is_object_or_null val = false ->
      assign key val obj = Ok obj)
  /\ (forall c ps, key = VObj c ps -> "__proto__" ∉ map fst ps ->
      exists o, assign key val obj = Ok o
                /\ (k ∈ map fst ps -> tbl_get o k = get_prop key k)
                /\ (k ∉ map fst ps -> tbl_get o k = tbl_get obj k))
  /\ (is_nullish key = true -> assign key val obj = Err TypeError).
Proof.
  split; [| split; [| split]].
  - intros name -> Hname. cbn [assign]. rewrite plain_set_named by exact Hname.
    eexists; split; [reflexivity |]. unfold tbl_get. split.
    + rewrite lookup_insert_eq. reflexivity.
    + intros Hne. rewrite lookup_insert_ne by congruence. reflexivity.
  - intros -> Hown Hval. cbn [assign]. unfold plain_set.
    rewrite Hown, Hval. reflexivity.
  - intros c ps -> Hproto. cbn [assign own_entries res_bind].
    rewrite plain_set_all_named
      by (rewrite map_map; cbn [fst]; rewrite map_id; exact Hproto).
    eexists; split; [reflexivity |]. unfold tbl_get.
    rewrite insert_all_lookup. split; intros Hk.
    + rewrite bool_decide_eq_true_2 by exact Hk. reflexivity.
    + rewrite bool_decide_eq_false_2 by exact Hk. reflexivity.
  - destruct key; try discriminate; reflexivity.
Qed.

Lemma assign_merges_witness :
  exists o,
    assign (VObj FObject [("required", VStr "missing"); ("type", VStr "wrong")])
      VUndefined {[ "required" := VStr "old"; "default" := VStr "bad" ]} = Ok o
    /\ tbl_get o "required" = VStr "missing"
    /\ tbl_get o "default" = VStr "bad".
Proof.
  set (key := VObj FObject [("required", VStr "missing"); ("type", VStr "wrong")]).
  set (obj := ({[ "required" := VStr "old"; "default" := VStr "bad" ]}
               : gmap string jsval)).
  assert (Hproto : "__proto__" ∉ map fst [("required", VStr "missing");
                                           ("type", VStr "wrong")]).
  { intros H. apply elem_of_cons in H as [[=] | H].
    apply elem_of_cons in H as [[=] | H].
    apply elem_of_nil in H. contradiction. }
  destruct (proj1 (proj2 (proj2 (assign_merges key VUndefined obj "required")))
              FObject _ eq_refl Hproto) as (o & Ho & Hin & _).
  destruct (proj1 (proj2 (proj2 (assign_merges key VUndefined obj "default")))
              FObject _ eq_refl Hproto) as (o' & Ho' & _ & Hout).
  exists o. split; [exact Ho |]. split.
  - apply Hin. left.
  - rewrite Ho in Ho'. injection Ho' as <-. rewrite Hout; [reflexivity |].
    intros H. apply elem_of_cons in H as [[=] | H].
    apply elem_of_cons in H as [[=] | H].
    apply elem_of_nil in H. contradiction.
Defined.

(** ** Messages and declared type of a property *)

(** X6.  A string given to [message] becomes the [default] message of the
    property: from then on every rule under whose name the messages of the
    property hold nothing truthy, neither a registered message nor a member
    inherited from [Object.prototype], fails with that string, whatever
    messages the schema holds.  The registry and the declared type are left
    as they were. *)
Theorem string_message_covers_all_rules
  (call : funref -> list jsval -> res jsval)
  (p : Property.t) (schema : Schema.t) (s r : string)
  (ctx : jsval) (args : list jsval) (path : string) :
  s <> "" ->
  to_boolean (plain_get (Property.messages p) r) = false ->
  exists p',
    Property.message (VStr s) p = Ok p'
    /\ Property.registry p' = Property.registry p
    /\ Property._type p' = Property._type p
    /\ Property._error call p' schema r ctx args path
       = Ok (ValidationError.mk (VStr s) path).
Proof.
  intros Hs Hr. unfold Property.message. cbn [res_bind].
  rewrite plain_set_all_named.
  2:{ intros H. apply elem_of_cons in H as [[=] | H].
      apply elem_of_nil in H. contradiction. }
  cbn [res_bind foldl fst snd].
  eexists. split; [reflexivity |]. split; [reflexivity |].
  split; [reflexivity |].
  unfold Property._error, Property.resolve_message, js_or.
  cbn [Property.messages].
  assert (Hstr : to_boolean (VStr s) = true).
  { simpl. destruct (String.eqb_spec s ""); [contradiction | reflexivity]. }
  assert (Hdefault : plain_get (<["default" := VStr s]> (Property.messages p))
                       "default" = VStr s).
  { unfold plain_get. rewrite lookup_insert_eq. reflexivity. }
  destruct (decide (r = "default")) as [-> | Hne].
  - rewrite Hdefault, Hstr. reflexivity.
  - assert (plain_get (<["default" := VStr s]> (Property.messages p)) r
            = plain_get (Property.messages p) r) as ->.
    { unfold plain_get. rewrite lookup_insert_ne by congruence. reflexivity. }
    rewrite Hr, Hdefault, Hstr. reflexivity.
Qed.

Lemma string_message_covers_all_rules_witness :
  exists p',
    Property.message (VStr "bad name") (Property.new "name") = Ok p'
    /\ Property._error sample_call p' sample_schema "required" VNull
         [VBool true] "name"
       = Ok (ValidationError.mk (VStr "bad name") "name").
Proof.
  destruct (string_message_covers_all_rules sample_call (Property.new "name")
              sample_schema "bad name" "required" VNull [VBool true] "name"
              ltac:(discriminate) eq_refl) as (p' & H1 & _ & _ & H4).
  exists p'. split; assumption.
Defined.

Lemma typecast_by_type (call : funref -> list jsval -> res jsval)
  (p p' : Property.t) (schema : Schema.t) (v : jsval) :
  Property._type p = Property._type p' ->
  Property.typecast call p schema v = Property.typecast call p' schema v.
Proof. intros H. unfold Property.typecast. rewrite H. reflexivity. Qed.

Lemma use_step_type (fns : list (string * Property.use_arg))
  (ps : Property.t * list (list jsval)) (k : string) :
  Property._type (Property.use_step fns ps k).1 = Property._type ps.1.
Proof.
  unfold Property.use_step. destruct (lookup_prop k fns) as [[v | a] |];
    destruct ps; reflexivity.
Qed.

Lemma use_type (fns : list (string * Property.use_arg))
  (ps : Property.t * list (list jsval)) :
  Property._type (Property.use fns ps).1 = Property._type ps.1.
Proof.
  unfold Property.use. revert ps.
  induction (own_keys fns) as [| k ks IH]; intros ps; [reflexivity |].
  simpl. rewrite IH. apply use_step_type.
Qed.

(** X7.  Only [type] changes the declared type of a property.  The other
    rule methods and [use], also when they register a rule under the name
    [type], leave it as it is, so that [typecast] goes on casting to the
    type declared before. *)
Theorem only_type_changes_typecast
  (call : funref -> list jsval -> res jsval) (schema : Schema.t) (v : jsval)
  (c : chain_call) (fns : list (string * Property.use_arg))
  (ps : Property.t * list (list jsval)) :
  (forall t, c <> CallType t) ->
  Property.typecast call (chain c ps).1 schema v
  = Property.typecast call ps.1 schema v
  /\ Property.typecast call (Property.use fns ps).1 schema v
     = Property.typecast call ps.1 schema v.
Proof.
  intros Hc. split; apply typecast_by_type.
  - destruct c as [? | t | ? | ? | ? | ? | name arr];
      try (destruct ps; reflexivity).
    + exfalso. apply (Hc t). reflexivity.
    + simpl. apply use_type.
  - apply use_type.
Qed.

Lemma only_type_changes_typecast_witness :
  let ps := Property.type (VFun FString) (Property.new "age", []) in
  let schema := Schema.mk ∅ ∅ {[ "string" := VFun (FUser "toText" 0 1) ]} in
  Property.typecast sample_call
    (Property.use [("type", Property.UVal (VFun (FUser "yes" 0 2)))] ps).1
    schema (VNum 7)
  = Ok (VStr "7").
Proof.
  intros ps schema.
  rewrite (proj2 (only_type_changes_typecast sample_call schema (VNum 7)
                    (CallRequired VUndefined)
                    [("type", Property.UVal (VFun (FUser "yes" 0 2)))] ps
                    ltac:(discriminate))).
  reflexivity.
Defined.

(** ** Order and fate of registered rules *)

Lemma first_occurrences_snoc (l : list string) (x : string) :
  first_occurrences (l ++ [x])
  = if bool_decide (x ∈ first_occurrences l)
    then first_occurrences l
    else first_occurrences l ++ [x].
Proof.
  unfold first_occurrences.
  rewrite reverse_app. cbn [reverse rev_append app].
  change (rev_append [] [x]) with [x]. cbn [app remove_dups].
  destruct (decide_rel elem_of x (reverse l)) as [Hin | Hnin].
  - rewrite bool_decide_eq_true_2; [reflexivity |].
    rewrite elem_of_reverse, elem_of_remove_dups. exact Hin.
  - rewrite bool_decide_eq_false_2.
    + rewrite reverse_cons. reflexivity.
    + rewrite elem_of_reverse, elem_of_remove_dups. exact Hnin.
Qed.

Lemma NoDup_first_occurrences (l : list string) : NoDup (first_occurrences l).
Proof.
  unfold first_occurrences. rewrite reverse_Permutation.
  apply NoDup_remove_dups.
Qed.

(** The own properties of the registry after a sequence of chaining calls
    on a new property, in the order of their creation. *)
Lemma registry_creation_order (cs : list chain_call) (name : string)
  (σ : list (list jsval)) :
  map fst (Property.registry
             (foldl (fun ps c => chain c ps) (Property.new name, σ) cs).1)
  = created_keys cs.
Proof.
  unfold created_keys.
  induction cs as [| c cs IH] using rev_ind; [reflexivity |].
  rewrite foldl_app, map_app, filter_app. cbn [foldl map].
  destruct (chain_registry c
              (foldl (fun ps c => chain c ps) (Property.new name, σ) cs))
    as (a & f & q & -> & Hreg & _).
  cbn [Property._register Property.registry].
  rewrite keys_obj_set, Hreg, IH.
  destruct (String.eqb_spec (rule_of c) "__proto__") as [Hk | Hk].
  - rewrite orb_true_r, filter_cons_False, filter_nil, app_nil_r by tauto.
    reflexivity.
  - rewrite orb_false_r, filter_cons_True, filter_nil by exact Hk.
    rewrite first_occurrences_snoc. reflexivity.
Qed.

(** [Object.keys] in terms of the keys in creation order: the keys that
    are not array indices keep their order and come last; those that are
    come first, sorted. *)
Lemma name_keys_filter (ks : list string) :
  name_keys ks = filter (fun k => array_index k = None) ks.
Proof.
  induction ks as [| k ks IH]; [reflexivity |]. cbn [name_keys].
  destruct (array_index k) eqn:E.
  - rewrite filter_cons_False by congruence. exact IH.
  - rewrite filter_cons_True by exact E. rewrite IH. reflexivity.
Qed.

Lemma index_keys_perm (ks : list string) :
  map snd (index_keys ks) ≡ₚ filter (fun k => array_index k <> None) ks.
Proof.
  induction ks as [| k ks IH]; [reflexivity |]. cbn [index_keys].
  destruct (array_index k) eqn:E.
  - rewrite insert_index_perm, filter_cons_True by congruence.
    cbn [map snd]. rewrite IH. reflexivity.
  - rewrite filter_cons_False by congruence. exact IH.
Qed.

Lemma array_index_canonical (k : string) (n : N) :
  array_index k = Some n -> NilEmpty.string_of_uint (N.to_uint n) = k.
Proof.
  unfold array_index. destruct (NilEmpty.uint_of_string k) as [u |];
    [| discriminate].
  cbv zeta.
  destruct (String.eqb_spec (NilEmpty.string_of_uint (N.to_uint (N.of_uint u))) k)
    as [Heq | _]; cbn [andb]; [| discriminate].
  destruct (N.of_uint u <? 4294967295)%N; [| discriminate].
  intros [= <-]. exact Heq.
Qed.

Lemma insert_index_sorted (x : N * string) (l : list (N * string)) :
  StronglySorted (fun a b => (a.1 < b.1)%N) l ->
  Forall (fun y => x.1 <> y.1) l ->
  StronglySorted (fun a b => (a.1 < b.1)%N) (insert_index x l).
Proof.
  induction l as [| y l IH]; intros Hs Hne; cbn [insert_index].
  - constructor; [constructor | constructor].
  - apply StronglySorted_inv in Hs as [Hs Hy].
    apply Forall_cons in Hne as [Hxy Hne].
    destruct (N.leb_spec x.1 y.1) as [Hle | Hgt].
    + constructor; [constructor; assumption |].
      constructor; [lia |].
      eapply Forall_impl; [exact Hy |]. intros z Hz. cbn in Hz |- *. lia.
    + constructor; [apply IH; assumption |].
      rewrite insert_index_perm. constructor; [lia | exact Hy].
Qed.

Lemma index_keys_sorted (ks : list string) :
  NoDup ks ->
  StronglySorted (fun a b => (a.1 < b.1)%N) (index_keys ks)
  /\ Forall (fun x => array_index x.2 = Some x.1 /\ x.2 ∈ ks) (index_keys ks).
Proof.
  induction ks as [| k ks IH]; intros Hnd; cbn [index_keys].
  - split; constructor.
  - apply NoDup_cons in Hnd as [Hk Hnd]. destruct (IH Hnd) as [Hs Hall].
    assert (Hall' : Forall (fun x => array_index x.2 = Some x.1
                                     /\ x.2 ∈ k :: ks) (index_keys ks)).
    { eapply Forall_impl; [exact Hall |]. intros x [H1 H2].
      split; [exact H1 | right; exact H2]. }
    destruct (array_index k) as [n |] eqn:E; [| split; assumption].
    split.
    + apply insert_index_sorted; [exact Hs |].
      eapply Forall_impl; [exact Hall |]. intros y [Hy Hin] Heq.
      cbn [fst] in Heq. subst n.
      apply array_index_canonical in E, Hy. apply Hk. congruence.
    + rewrite insert_index_perm. constructor; [| exact Hall'].
      split; [exact E | left].
Qed.

Lemma own_keys_sorted (ks : list string) :
  NoDup ks -> StronglySorted index_lt (map snd (index_keys ks)).
Proof.
  intros Hnd. destruct (index_keys_sorted ks Hnd) as [Hs Hall].
  induction (index_keys ks) as [| x l IH]; [constructor |].
  apply StronglySorted_inv in Hs as [Hs Hx].
  apply Forall_cons in Hall as [[Hx1 _] Hall].
  cbn [map]. constructor; [apply IH; assumption |].
  apply Forall_map. apply Forall_forall. intros y Hy.
  rewrite Forall_forall in Hx, Hall.
  destruct (Hall y Hy) as [Hy1 _]. specialize (Hx y Hy).
  unfold index_lt. rewrite Hx1, Hy1. exact Hx.
Qed.

(** X8.  After any sequence of chaining calls on a new property,
    [Object.keys] lists the rules of the registry as follows: first the
    names that are array indices, in ascending order, then the other names
    in the order in which they were first registered, each name once,
    whatever was registered again later.  No rule is listed under the name
    [__proto__].  When no name is an array index the rules are listed in
    the order of their first registration. *)
Theorem rules_keep_first_registration_order (cs : list chain_call)
  (name : string) (σ : list (list jsval)) :
  let keys :=
    own_keys (Property.registry
                (foldl (fun ps c => chain c ps) (Property.new name, σ) cs).1) in
  exists indices,
    keys = indices ++ filter (fun k => array_index k = None) (created_keys cs)
    /\ indices ≡ₚ filter (fun k => array_index k <> None) (created_keys cs)
    /\ StronglySorted index_lt indices
    /\ (Forall (fun k => array_index k = None) (created_keys cs) ->
        keys = created_keys cs).
Proof.
  intros keys. subst keys. unfold own_keys.
  rewrite registry_creation_order.
  exists (map snd (index_keys (created_keys cs))).
  split; [rewrite name_keys_filter; reflexivity |].
  split; [apply index_keys_perm |].
  split; [apply own_keys_sorted, NoDup_first_occurrences |].
  intros Hnone. rewrite Forall_forall in Hnone.
  rewrite index_keys_none, name_keys_none by exact Hnone. reflexivity.
Qed.

Lemma use_step_length (fns : list (string * Property.use_arg))
  (ps : Property.t * list (list jsval)) (k : string) :
  (List.length ps.2 <= List.length (Property.use_step fns ps k).2)%nat.
Proof.
  unfold Property.use_step. destruct ps as [p σ].
  destruct (lookup_prop k fns) as [[v | a] |]; simpl.
  - rewrite length_insert, length_app. simpl. lia.
  - rewrite length_insert. lia.
  - lia.
Qed.

Lemma use_fold_length (fns : list (string * Property.use_arg))
  (ks : list string) (ps : Property.t * list (list jsval)) :
  (List.length ps.2 <= List.length (foldl (Property.use_step fns) ps ks).2)%nat.
Proof.
  revert ps. induction ks as [| k ks IH]; intros ps; simpl; [lia |].
  etransitivity; [apply (use_step_length fns ps k) | apply IH].
Qed.

Lemma as_array_wraps (v : jsval) : is_array v = false -> Property.as_array v = [v].
Proof. destruct v; try discriminate; reflexivity. Qed.

(** X9.  A function, or any other value that is not an array, given to
    [use] under a name is registered as the function of that rule, with a
    new, empty array of static arguments that is none of the arrays of the
    caller: its validator will be called with the value, the context and
    the path only. *)
Theorem use_registers_bare_function
  (fns : list (string * Property.use_arg)) (p : Property.t)
  (σ : list (list jsval)) (name : string) (v : jsval) :
  NoDup (map fst fns) ->
  (forall k b, lookup_prop k fns = Some (Property.UArr b) ->
               (b < List.length σ)%nat) ->
  lookup_prop name fns = Some (Property.UVal v) ->
  is_array v = false ->
  exists a,
    Property.registered (Property.use fns (p, σ)).1 name
    = Some (Property.Rule a v)
    /\ (Property.use fns (p, σ)).2 !! a = Some []
    /\ (List.length σ <= a)%nat.
Proof.
  intros Hnd Hold Hname Hv. unfold Property.use.
  assert (Hin : name ∈ own_keys fns).
  { rewrite own_keys_perm. eapply lookup_prop_Some_key; exact Hname. }
  assert (Hnd' : NoDup (own_keys fns)) by (rewrite own_keys_perm; exact Hnd).
  apply list_elem_of_split in Hin as (pre & post & Hsplit).
  rewrite Hsplit in Hnd' |- *.
  apply NoDup_app in Hnd' as (_ & Hpre & Hpost).
  apply NoDup_cons in Hpost as [Hpost _].
  rewrite foldl_app. simpl.
  pose proof (use_fold_length fns pre (p, σ)) as Hlen.
  destruct (foldl (Property.use_step fns) (p, σ) pre) as [p1 σ1].
  simpl in Hlen. exists (List.length σ1).
  assert (Hstep : Property.use_step fns (p1, σ1) name
                  = (Property._register name (List.length σ1) v p1,
                     <[List.length σ1 := []]> (σ1 ++ [[v]]))).
  { unfold Property.use_step. rewrite Hname.
    unfold Property.use_entry, alloc. cbn [fst snd].
    rewrite (as_array_wraps v Hv), contents_alloc. reflexivity. }
  rewrite Hstep.
  destruct (use_fold_frame fns post
              (Property._register name (List.length σ1) v p1)
              (<[List.length σ1 := []]> (σ1 ++ [[v]]))
              (List.length σ1) []) as [Ha Hr].
  { apply list_lookup_insert_eq. rewrite length_app. simpl. lia. }
  { intros k Hk Hk'. apply Hold in Hk'. lia. }
  split; [| split; [exact Ha | exact Hlen]].
  rewrite Hr by exact Hpost. apply registered_register.
Qed.

Lemma use_registers_bare_function_witness :
  exists a,
    Property.registered
      (Property.use [("binary", Property.UVal (VFun (FUser "yes" 0 2)));
                     ("bits", Property.UArr 0)]
         (Property.new "some.path", bits_store)).1 "binary"
    = Some (Property.Rule a (VFun (FUser "yes" 0 2)))
    /\ (Property.use [("binary", Property.UVal (VFun (FUser "yes" 0 2)));
                      ("bits", Property.UArr 0)]
          (Property.new "some.path", bits_store)).2 !! a = Some []
    /\ (1 <= a)%nat.
Proof.
  apply (use_registers_bare_function
           [("binary", Property.UVal (VFun (FUser "yes" 0 2)));
            ("bits", Property.UArr 0)]
           (Property.new "some.path") bits_store "binary"
           (VFun (FUser "yes" 0 2))).
  - apply (bool_decide_unpack _). vm_compute. exact I.
  - intros k b Hk. simpl in Hk.
    destruct (String.eqb k "binary"); [discriminate |].
    destruct (String.eqb k "bits"); [| discriminate].
    injection Hk as <-. simpl. lia.
  - reflexivity.
  - reflexivity.
Defined.

(** ** Paths and their segments *)

Lemma push_char_app (c : ascii) (l1 l2 : list string) :
  l1 <> [] -> push_char c (l1 ++ l2) = push_char c l1 ++ l2.
Proof. destruct l1; [contradiction | reflexivity]. Qed.

Lemma split_dots_app (a b : string) :
  split_dots (a ++ "." ++ b) = split_dots a ++ split_dots b.
Proof.
  induction a as [| c a IH]; [reflexivity |].
  change (String c a ++ "." ++ b)%string with (String c (a ++ "." ++ b)).
  rewrite !split_dots_cons, IH.
  destruct (Ascii.eqb c "."); [reflexivity |].
  apply push_char_app, split_dots_nonempty.
Qed.

Lemma split_dots_uint (u : Decimal.uint) :
  split_dots (NilEmpty.string_of_uint u) = [NilEmpty.string_of_uint u].
Proof. induction u; simpl; try rewrite IHu; reflexivity. Qed.

Lemma split_dots_dec (i : nat) : split_dots (dec i) = [dec i].
Proof. apply split_dots_uint. Qed.

Lemma dec_not_dollar (i : nat) : dec i <> "$".
Proof. unfold dec. destruct (Nat.to_uint i); discriminate. Qed.

Lemma join_nonempty_prefix (x : acc) (prefix : string) :
  prefix <> "" ->
  join x (AStr prefix) = AStr (prefix ++ "." ++ acc_str x).
Proof.
  intros Hne. unfold join; simpl.
  destruct (String.eqb_spec prefix ""); [contradiction | reflexivity].
Qed.

(** X10.  [join] appends the segments of the path to those of a non-empty
    prefix, an array index counting for one segment; a prefix that is
    absent, empty or the number 0 is dropped, and the path comes back
    alone. *)
Theorem join_appends_segments (key prefix : string) (i : nat) (x : acc) :
  prefix <> "" ->
  (exists s, join (AStr key) (AStr prefix) = AStr s
             /\ split_dots s = split_dots prefix ++ split_dots key)
  /\ (exists s, join (ANum i) (AStr prefix) = AStr s
                /\ split_dots s = split_dots prefix ++ [dec i])
  /\ join x AUndef = x /\ join x (AStr "") = x /\ join x (ANum 0) = x.
Proof.
  intros Hne. split; [| split; [| repeat split]].
  - eexists. split; [apply join_nonempty_prefix; exact Hne |].
    apply split_dots_app.
  - eexists. split; [apply join_nonempty_prefix; exact Hne |].
    simpl. rewrite split_dots_app, split_dots_dec. reflexivity.
Qed.

Lemma join_appends_segments_witness :
  exists s, join (AStr "name") (AStr "pets.$") = AStr s
            /\ split_dots s = ["pets"; "$"; "name"].
Proof.
  destruct (proj1 (join_appends_segments "name" "pets.$" 0 AUndef
                     ltac:(discriminate))) as (s & Hs & Hsegs).
  exists s. split; [exact Hs | exact Hsegs].
Defined.

(** ** What [enumerate] reports *)

Section EnumerateReports.

Variable dot_get : jsval -> string -> jsval.
Variable obj : jsval.

Lemma enumerate_concrete_aux (n : nat) (path : string) :
  (dollars path < n)%nat ->
  forall p v, (p, v) ∈ enumerate dot_get path obj ->
              wildcards p = 0%nat /\ v = dot_get obj p.
Proof.
  revert path. induction n as [| n IH]; intros path Hn p v Hin; [lia |].
  rewrite enumerate_unfold in Hin.
  destruct (split_wildcard path) as [| first [| part parts]] eqn:Hsplit.
  - apply elem_of_nil in Hin. contradiction.
  - apply list_elem_of_singleton in Hin. injection Hin as -> ->.
    assert (first = path) as ->.
    { rewrite <- (join_split_wildcard path), Hsplit. reflexivity. }
    split; [apply no_wildcard_single_part; exact Hsplit | reflexivity].
  - destruct (dot_get obj first) as [| | | | | | | | xs |];
      try (apply elem_of_nil in Hin; contradiction).
    apply list_elem_of_In, in_flat_map in Hin as (i & _ & Hin).
    apply list_elem_of_In in Hin.
    destruct (dollars_next path first part parts i Hsplit) as [_ Hd].
    eapply IH; [| exact Hin]. lia.
Qed.

End EnumerateReports.

(** X11.  Every call that [enumerate] makes is on a concrete path, one
    without wildcard segment, together with the value that [dot.get] finds
    in the object at that very path. *)
Theorem enumerate_reports_concrete_paths
  (dot_get : jsval -> string -> jsval) (path : string) (obj : jsval)
  (p : string) (v : jsval) :
  (p, v) ∈ enumerate dot_get path obj ->
  wildcards p = 0%nat /\ v = dot_get obj p.
Proof.
  apply (enumerate_concrete_aux dot_get obj (S (dollars path))). lia.
Qed.

Lemma enumerate_reports_concrete_paths_witness :
  wildcards "pets.1.name" = 0%nat
  /\ VStr "b" = sample_dot_get sample_object "pets.1.name".
Proof.
  apply (enumerate_reports_concrete_paths sample_dot_get "pets.$.name"
           sample_object "pets.1.name" (VStr "b")).
  right. left.
Defined.

Lemma lookahead_first_part (s : string) :
  lookahead s = true -> lookahead (hd EmptyString (split_wildcard s)) = true.
Proof.
  destruct s as [| c [| d rest]]; try reflexivity.
  - intros Hc. simpl in Hc. simpl. exact Hc.
  - intros Hc. rewrite split_wildcard_cons2.
    destruct (_ && _); [reflexivity |].
    pose proof (split_wildcard_nonempty (String d rest)) as Hne.
    destruct (split_wildcard (String d rest)); [contradiction | exact Hc].
Qed.

(** Every part after the first is empty or begins with a dot. *)
Lemma later_parts_lookahead (s : string) :
  Forall (fun p => lookahead p = true) (tl (split_wildcard s)).
Proof.
  enough (H : Forall (fun p => lookahead p = true) (tl (split_wildcard s))
              /\ forall c, Forall (fun p => lookahead p = true)
                             (tl (split_wildcard (String c s)))) by apply H.
  induction s as [| d rest [IH1 IH2]].
  - split; [constructor | intros c; constructor].
  - split; [apply IH2 |]. intros c. rewrite split_wildcard_cons2.
    destruct (Ascii.eqb c "." && Ascii.eqb d "$" && lookahead rest) eqn:E.
    + apply andb_prop in E as [_ Hla]. cbn [tl].
      pose proof (split_wildcard_nonempty rest) as Hne.
      pose proof (lookahead_first_part rest Hla) as Hhd.
      destruct (split_wildcard rest) as [| h t]; [contradiction |].
      constructor; [exact Hhd | exact IH1].
    + rewrite tl_push_char. apply IH2.
Qed.

Lemma rest_lookahead (path first part : string) (parts : list string) :
  split_wildcard path = first :: part :: parts ->
  lookahead (join_with ".$" (part :: parts)) = true.
Proof.
  intros Hsplit. pose proof (later_parts_lookahead path) as H.
  rewrite Hsplit in H. cbn [tl] in H. apply Forall_cons in H as [Hpart _].
  destruct part as [| c part]; destruct parts; try reflexivity; exact Hpart.
Qed.

Lemma count_wild_app (l1 l2 : list string) :
  count_wild (l1 ++ l2) = (count_wild l1 + count_wild l2)%nat.
Proof.
  induction l1 as [| x l1 IH]; simpl; [reflexivity |]. rewrite IH. lia.
Qed.

Lemma wildcards_app (a b : string) :
  wildcards (a ++ "." ++ b) = (wildcards a + count_wild (split_dots b))%nat.
Proof.
  unfold wildcards. rewrite split_dots_app.
  pose proof (split_dots_nonempty a) as Hne.
  destruct (split_dots a) as [| h t]; [contradiction |].
  change (tl ((h :: t) ++ split_dots b)) with (t ++ split_dots b).
  apply count_wild_app.
Qed.

Lemma append_empty (s : string) : (s ++ "")%string = s.
Proof.
  induction s as [| c s IH]; [reflexivity |].
  change (String c s ++ "")%string with (String c (s ++ "")).
  f_equal. exact IH.
Qed.

Lemma append_assoc3 (a b c : string) :
  ((a ++ b) ++ c)%string = (a ++ (b ++ c))%string.
Proof.
  induction a as [| x a IH]; [reflexivity |].
  change ((String x a ++ b) ++ c)%string with (String x ((a ++ b) ++ c)).
  change (String x a ++ (b ++ c))%string with (String x (a ++ (b ++ c))).
  f_equal. exact IH.
Qed.

Lemma count_wild_after (x rest : string) :
  split_dots x = [x] -> lookahead rest = true ->
  count_wild (split_dots (x ++ rest))
  = ((if String.eqb x "$" then 1 else 0)
     + match rest with
       | EmptyString => 0
       | String _ r => count_wild (split_dots r)
       end)%nat.
Proof.
  intros Hx Hla. destruct rest as [| c r].
  - rewrite append_empty, Hx. simpl. lia.
  - simpl in Hla. apply Ascii.eqb_eq in Hla. subst c.
    change (x ++ String "." r)%string with (x ++ "." ++ r)%string.
    rewrite split_dots_app, Hx. simpl. lia.
Qed.

(** The path of a recursive call of [enumerate] has one wildcard segment
    less than the path of the call. *)
Lemma wildcards_next (first rest : string) (i : nat) :
  lookahead rest = true ->
  wildcards (acc_str (join (ANum i) (AStr first)) ++ rest)
  = pred (wildcards (first ++ ".$" ++ rest)).
Proof.
  intros Hla.
  assert (Hpath : wildcards (first ++ ".$" ++ rest)
                  = S (wildcards first
                       + match rest with
                         | EmptyString => 0
                         | String _ r => count_wild (split_dots r)
                         end)).
  { change (first ++ ".$" ++ rest)%string
      with (first ++ "." ++ ("$" ++ rest))%string.
    rewrite wildcards_app, (count_wild_after "$" rest eq_refl Hla).
    simpl. lia. }
  rewrite Hpath. cbn [pred].
  assert (Hdec : String.eqb (dec i) "$" = false).
  { destruct (String.eqb_spec (dec i) "$") as [E | _]; [| reflexivity].
    destruct (dec_not_dollar i E). }
  destruct (String.eqb_spec first "") as [-> | Hne].
  - unfold join; simpl acc_str.
    destruct rest as [| c r].
    + rewrite append_empty.
      unfold wildcards. rewrite split_dots_dec. reflexivity.
    + simpl in Hla. apply Ascii.eqb_eq in Hla. subst c.
      change (dec i ++ String "." r)%string with (dec i ++ "." ++ r)%string.
      rewrite wildcards_app. unfold wildcards at 1.
      rewrite split_dots_dec. reflexivity.
  - rewrite join_nonempty_prefix by exact Hne. cbn [acc_str].
    rewrite append_assoc3.
    change (("." ++ dec i) ++ rest)%string with ("." ++ (dec i ++ rest))%string.
    rewrite wildcards_app,
      (count_wild_after (dec i) rest (split_dots_dec i) Hla), Hdec.
    reflexivity.
Qed.

Lemma flat_map_singleton {A B} (f : A -> B) (l : list A) :
  flat_map (fun x => [f x]) l = map f l.
Proof. induction l as [| x l IH]; simpl; [reflexivity |]. rewrite IH. reflexivity. Qed.

(** X12.  On a path with exactly one wildcard segment, [first.$rest],
    [enumerate] makes no call when the value at [first] is not an array,
    and otherwise one call for each element of the array, in the order of
    the indices, on the path with the index in place of the dollar sign
    and the value found there: none for an empty array. *)
Theorem enumerate_single_wildcard
  (dot_get : jsval -> string -> jsval) (path : string) (obj : jsval) :
  wildcards path = 1%nat ->
  exists first rest,
    path = (first ++ ".$" ++ rest)%string
    /\ (is_array (dot_get obj first) = false ->
        enumerate dot_get path obj = [])
    /\ (forall xs,
          dot_get obj first = VArr xs ->
          enumerate dot_get path obj
          = map (fun i =>
                   let p := (acc_str (join (ANum i) (AStr first)) ++ rest)%string in
                   (p, dot_get obj p))
              (seq 0 (List.length xs)))
    /\ (first <> "" ->
        forall i, acc_str (join (ANum i) (AStr first))
                  = (first ++ "." ++ dec i)%string).
Proof.
  intros Hw. pose proof (split_wildcard_parts path) as Hlen. rewrite Hw in Hlen.
  destruct (split_wildcard path) as [| first [| part [| ? ?]]] eqn:Hsplit;
    try discriminate Hlen.
  exists first, part.
  destruct (dollars_next path first part [] 0 Hsplit) as [Hpath _].
  cbn [join_with] in Hpath.
  pose proof (rest_lookahead path first part [] Hsplit) as Hla.
  cbn [join_with] in Hla.
  split; [exact Hpath |]. split; [| split].
  - intros Harr. rewrite enumerate_unfold, Hsplit.
    destruct (dot_get obj first); try reflexivity. discriminate.
  - intros xs Hxs. rewrite enumerate_unfold, Hsplit, Hxs. cbn [join_with].
    rewrite <- flat_map_singleton. apply flat_map_ext. intros i.
    assert (Hnext : wildcards (acc_str (join (ANum i) (AStr first)) ++ part)
                    = 0%nat).
    { rewrite (wildcards_next first part i Hla), <- Hpath, Hw. reflexivity. }
    apply no_wildcard_single_part in Hnext.
    rewrite enumerate_unfold, Hnext. reflexivity.
  - intros Hne i. rewrite join_nonempty_prefix by exact Hne. reflexivity.
Qed.

Lemma enumerate_single_wildcard_witness :
  exists first rest,
    "pets.$.name" = (first ++ ".$" ++ rest)%string
    /\ (forall xs,
          sample_dot_get sample_object first = VArr xs ->
          enumerate sample_dot_get "pets.$.name" sample_object
          = map (fun i =>
                   let p := (acc_str (join (ANum i) (AStr first)) ++ rest)%string in
                   (p, sample_dot_get sample_object p))
              (seq 0 (List.length xs))).
Proof.
  destruct (enumerate_single_wildcard sample_dot_get "pets.$.name"
              sample_object eq_refl) as (first & rest & H1 & _ & H3 & _).
  exists first, rest. split; [exact H1 | exact H3].
Defined.

(** ** What [walk] hands to the callback *)

Lemma in_step_key (k : string) (path prop : acc) :
  in_step path prop -> in_step (join (AStr k) path) (join (AStr k) prop).
Proof.
  intros (p & q & -> & -> & Hp & Hq & Hsegs).
  exists (p ++ "." ++ k)%string, (q ++ "." ++ k)%string.
  rewrite !join_nonempty_prefix by assumption. repeat split.
  - destruct p; [contradiction | discriminate].
  - destruct q; [contradiction | discriminate].
  - rewrite !split_dots_app. apply Forall2_app; [exact Hsegs |].
    apply Forall_Forall2_diag, Forall_forall. intros s _. left. reflexivity.
Qed.

Lemma in_step_index (i : nat) (path prop : acc) :
  in_step path prop -> in_step (join (ANum i) path) (join (AStr "$") prop).
Proof.
  intros (p & q & -> & -> & Hp & Hq & Hsegs).
  exists (p ++ "." ++ dec i)%string, (q ++ "." ++ "$")%string.
  rewrite !join_nonempty_prefix by assumption. repeat split.
  - destruct p; [contradiction | discriminate].
  - destruct q; [contradiction | discriminate].
  - rewrite !split_dots_app, split_dots_dec. apply Forall2_app; [exact Hsegs |].
    constructor; [| constructor]. right. split; [reflexivity | eauto].
Qed.

Lemma in_step_top_key (k : string) : k <> "" -> in_step (AStr k) (AStr k).
Proof.
  intros Hk. exists k, k. repeat split; try assumption.
  apply Forall_Forall2_diag, Forall_forall. intros s _. left. reflexivity.
Qed.

Section WalkInStep.

Context {St : Type}.
Variable callback : acc -> acc -> St -> bool * St.
Variable I : St -> Prop.
Hypothesis callback_keeps :
  forall path prop s, in_step path prop -> I s -> I (callback path prop s).2.

Lemma walk_in_step_below (obj : jsval) :
  forall path prop st,
    in_step path prop -> I st -> I (walk callback obj path prop st).
Proof.
  induction obj as [| | b | n | s | f | t | src | xs IHxs | c ps IHps]
    using jsval_nested_ind; intros path prop st Hstep Hst; try exact Hst.
  - rewrite walk_array. generalize 0%nat. revert st Hst.
    induction IHxs as [| x xs Hx _ IH]; intros st Hst i; [exact Hst |].
    cbn [List.length seq zip zip_with foldl]. apply IH.
    unfold walk_element; simpl. apply Hx; [apply in_step_index; exact Hstep | exact Hst].
  - destruct (String.eqb_spec (typeOf (VObj c ps)) "object") as [Hobj | Hobj].
    + rewrite walk_object by exact Hobj. clear Hobj. revert st Hst.
      induction IHps as [| [k x] ps Hx _ IH]; intros st Hst; [exact Hst |].
      cbn [foldl]. apply IH. unfold walk_entry; cbn [fst snd].
      pose proof (callback_keeps _ _ st (in_step_key k path prop Hstep) Hst) as Hcb.
      destruct (callback (join (AStr k) path) (join (AStr k) prop) st)
        as [[|] st1]; [| exact Hcb].
      apply Hx; [apply in_step_key; exact Hstep | exact Hcb].
    + rewrite walk_leaf; [exact Hst | | exact Hobj].
      unfold typeOf. destruct (strict_eq _ _); discriminate.
Qed.

Lemma walk_in_step_top (c : funref) (ps : list (string * jsval)) (st : St) :
  Forall (fun kv => kv.1 <> "") ps -> I st ->
  I (walk callback (VObj c ps) AUndef AUndef st).
Proof.
  intros Hkeys Hst.
  destruct (String.eqb_spec (typeOf (VObj c ps)) "object") as [Hobj | Hobj].
  - rewrite walk_object by exact Hobj. clear Hobj. revert st Hst.
    induction Hkeys as [| [k x] ps Hk _ IH]; intros st Hst; [exact Hst |].
    cbn [foldl]. apply IH. unfold walk_entry; cbn [fst snd].
    change (join (AStr k) AUndef) with (AStr k).
    pose proof (callback_keeps _ _ st (in_step_top_key k Hk) Hst) as Hcb.
    destruct (callback (AStr k) (AStr k) st) as [[|] st1]; [| exact Hcb].
    apply walk_in_step_below; [apply in_step_top_key; exact Hk | exact Hcb].
  - rewrite walk_leaf; [exact Hst | | exact Hobj].
    unfold typeOf. destruct (strict_eq _ _); discriminate.
Qed.

End WalkInStep.

(** X13.  [walk] only calls the callback on a path and a property name
    that are in step, the property name being the path with a dollar sign
    in place of each array index: whatever the callback keeps true of its
    state on such pairs is true after the walk.  This holds for a walk
    started on a pair in step, and for a walk started without path on an
    object whose keys are not empty. *)
Theorem walk_keeps_paths_in_step {St : Type}
  (callback : acc -> acc -> St -> bool * St) (I : St -> Prop)
  (obj : jsval) (st : St) :
  (forall path prop s, in_step path prop -> I s -> I (callback path prop s).2) ->
  I st ->
  (forall path prop,
      in_step path prop -> I (walk callback obj path prop st))
  /\ (forall c ps,
        obj = VObj c ps -> Forall (fun kv => kv.1 <> "") ps ->
        I (walk callback obj AUndef AUndef st)).
Proof.
  intros Hcb Hst. split.
  - intros path prop Hstep. apply walk_in_step_below; assumption.
  - intros c ps -> Hkeys. apply walk_in_step_top; assumption.
Qed.

Lemma walk_keeps_paths_in_step_witness :
  Forall (fun pq => in_step pq.1 pq.2)
    (walk log_callback walked_object AUndef AUndef []).
Proof.
  refine (proj2 (walk_keeps_paths_in_step log_callback
                   (Forall (fun pq => in_step pq.1 pq.2))
                   walked_object [] _ _) FObject _ eq_refl _).
  - intros path prop s Hstep Hs. unfold log_callback; cbn [snd].
    apply Forall_app. split; [exact Hs |]. constructor; [exact Hstep | constructor].
  - constructor.
  - repeat constructor; discriminate.
Defined.

(** ** Rules run by the built-in validators *)

(** X14.  After a rule method ([required], [type], [length], [size],
    [enum], [match]), running the rule of that name calls the schema's
    validator of the name, also when a function had been given to [use]
    under that name before, on the value, the context, the argument that
    the method was given and the path, in this order. *)
Theorem rule_method_runs_schema_validator
  (call : funref -> list jsval -> res jsval) (schema : Schema.t)
  (c : chain_call) (p : Property.t) (σ : list (list jsval))
  (value ctx : jsval) (pth : string) (f : funref) :
  (forall n a, c <> CallUse n a) ->
  tbl_get (Schema.validators schema) (rule_of c) = VFun f ->
  Property._run call (chain c (p, σ)).1 schema (chain c (p, σ)).2
    (rule_of c) value ctx pth
  = ([Property.mkInvocation (rule_of c) f
        [value; ctx; argument_of c; VStr pth]],
     do valid <- call f [value; ctx; argument_of c; VStr pth];
     if negb (to_boolean valid)
     then do e <- Property._error call (chain c (p, σ)).1 schema (rule_of c)
                    ctx [argument_of c] pth;
          Ok (Some e)
     else Ok None).
Proof.
  intros Hc Hf.
  assert (Hfresh : forall x : list jsval,
             contents (σ ++ [x]) (List.length σ) = x).
  { intros x. unfold contents. rewrite lookup_app_r, Nat.sub_diag by lia.
    reflexivity. }
  destruct c as [b | t | r | r | e | re | n a];
    try (exfalso; apply (Hc n a); reflexivity);
    cbn [chain rule_of argument_of] in *;
    unfold Property.required, Property.type, Property.length, Property.size,
      Property.enum, Property.match_, Property.register_fresh, alloc,
      Property._run;
    cbn [fst snd]; rewrite registered_register;
    cbn [Property.args Property.fn];
    rewrite Hfresh; unfold Property.run_rule, js_or; cbn [to_boolean];
    rewrite Hf; reflexivity.
Qed.

Lemma rule_method_runs_schema_validator_witness :
  Property._run builtins_call
    (Property.length (range_arg (Some 3) None)
       (Property.use [("length", Property.UVal (VFun (FUser "yes" 0 2)))]
          (Property.new "email", []))).1
    builtins_schema
    (Property.length (range_arg (Some 3) None)
       (Property.use [("length", Property.UVal (VFun (FUser "yes" 0 2)))]
          (Property.new "email", []))).2
    "length" (VStr "ab") VNull "email"
  = ([Property.mkInvocation "length" (builtin_ref "length")
        [VStr "ab"; VNull; range_arg (Some 3) None; VStr "email"]],
     Ok (Some (ValidationError.mk (VStr "invalid") "email"))).
Proof.
  exact (rule_method_runs_schema_validator builtins_call builtins_schema
           (CallLength (range_arg (Some 3) None))
           (Property.use [("length", Property.UVal (VFun (FUser "yes" 0 2)))]
              (Property.new "email", [])).1
           (Property.use [("length", Property.UVal (VFun (FUser "yes" 0 2)))]
              (Property.new "email", [])).2
           (VStr "ab") VNull "email" (builtin_ref "length")
           ltac:(discriminate) eq_refl).
Defined.

Lemma builtin_names_not_indices (k : string) :
  k ∈ builtin_names -> array_index k = None.
Proof.
  intros Hk. unfold builtin_names in Hk.
  repeat (apply elem_of_cons in Hk as [-> | Hk]; [reflexivity |]).
  apply elem_of_nil in Hk. contradiction.
Qed.

Lemma builtin_passes_absence (test : string -> jsval -> res bool)
  (k : string) (actuals : list jsval) :
  k ∈ builtin_names -> k <> "required" ->
  is_nullish (actual 0 actuals) = true ->
  builtin_apply test k actuals = Ok (VBool true).
Proof.
  intros Hk Hne Hnull. unfold builtin_names in Hk.
  apply elem_of_cons in Hk as [-> | Hk]; [contradiction |].
  repeat (apply elem_of_cons in Hk as [-> | Hk];
          [unfold builtin_apply, Validators.type, Validators.length,
             Validators.size, Validators.enum, Validators.match_, verdict;
           cbn [String.eqb Ascii.eqb Bool.eqb]; rewrite Hnull; reflexivity |]).
  apply elem_of_nil in Hk. contradiction.
Qed.

Lemma lookup_prop_Some_elem {A} (k : string) (v : A) (o : list (string * A)) :
  lookup_prop k o = Some v -> (k, v) ∈ o.
Proof.
  induction o as [| [k' v'] o IH]; simpl; [discriminate |].
  destruct (String.eqb_spec k k') as [-> | _].
  - intros [= ->]. left.
  - intros H. right. apply IH. exact H.
Qed.

Section Absence.

Variable call : funref -> list jsval -> res jsval.
Variable test : string -> jsval -> res bool.
Variables (p : Property.t) (schema : Schema.t) (σ : list (list jsval)).
Variables (value ctx : jsval) (pth : string).

Hypothesis builtins : runs_builtins call test schema.
Hypothesis distinct : NoDup (map fst (Property.registry p)).
Hypothesis plain :
  forall kr, kr ∈ Property.registry p ->
             kr.1 ∈ builtin_names /\ to_boolean (Property.fn kr.2) = false.
Hypothesis absent : is_nullish value = true.

Lemma plain_rule_verdict (kr : string * Property.rule) :
  kr ∈ Property.registry p ->
  exists f,
    Property.validator_of schema kr.1 kr.2 = VFun f
    /\ call f (Property.actuals σ kr.2 value ctx pth)
       = builtin_apply test kr.1 (Property.actuals σ kr.2 value ctx pth).
Proof.
  intros Hin. destruct (plain kr Hin) as [Hname Hfn].
  destruct (builtins kr.1 Hname) as (f & Hf & Hcall).
  exists f. split; [| apply Hcall].
  unfold Property.validator_of, js_or. rewrite Hfn. exact Hf.
Qed.

Lemma other_rules_pass_absence (kr : string * Property.rule) :
  kr ∈ Property.registry p -> kr.1 <> "required" ->
  Property.rule_passes call schema σ value ctx pth kr.
Proof.
  intros Hin Hne. destruct (plain_rule_verdict kr Hin) as (f & Hf & Hcall).
  exists f, (VBool true). split; [exact Hf |]. split; [| reflexivity].
  rewrite Hcall. apply builtin_passes_absence;
    [apply (plain kr Hin) | exact Hne | exact absent].
Qed.

Lemma validate_plain (path : option string) :
  default (Property.name p) path = pth ->
  Property.validate call p schema σ value ctx path
  = Property.run_rules call p schema σ (map fst (Property.registry p))
      value ctx pth.
Proof.
  intros <-. unfold Property.validate. rewrite own_keys_creation_order; [reflexivity |].
  intros k Hk. apply list_elem_of_fmap in Hk as (kr & -> & Hin).
  apply builtin_names_not_indices, (plain kr Hin).
Qed.

End Absence.

(** X15.  On a property whose rules are all run by the built-in validators,
    an absent value (null or undefined) is reported by the rule [required]
    and by no other rule, wherever that rule stands in the registry:
    [validate] returns null when [required] is not registered or holds the
    argument [false], and the error of [required] otherwise, also when the
    arguments of the other rules are unusable. *)
Theorem absence_is_reported_by_required_only
  (call : funref -> list jsval -> res jsval)
  (test : string -> jsval -> res bool)
  (p : Property.t) (schema : Schema.t) (σ : list (list jsval))
  (value ctx : jsval) (path : option string) :
  runs_builtins call test schema ->
  NoDup (map fst (Property.registry p)) ->
  (forall kr, kr ∈ Property.registry p ->
              kr.1 ∈ builtin_names /\ to_boolean (Property.fn kr.2) = false) ->
  is_nullish value = true ->
  let pth := default (Property.name p) path in
  let third r := actual 2 (Property.actuals σ r value ctx pth) in
  (lookup_prop "required" (Property.registry p) = None ->
     (Property.validate call p schema σ value ctx path).2 = Ok None)
  /\ (forall r,
        lookup_prop "required" (Property.registry p) = Some r ->
        third r = VBool false ->
        (Property.validate call p schema σ value ctx path).2 = Ok None)
  /\ (forall r,
        lookup_prop "required" (Property.registry p) = Some r ->
        third r <> VBool false ->
        (Property.validate call p schema σ value ctx path).2
        = (do e <- Property._error call p schema "required" ctx
                     (contents σ (Property.args r)) pth;
           Ok (Some e))).
Proof.
  intros Hb Hnd Hplain Habs pth third.
  assert (Hreg : forall kr, kr ∈ Property.registry p ->
                 lookup_prop kr.1 (Property.registry p) = Some kr.2).
  { intros [k r] Hin. apply lookup_prop_NoDup; assumption. }
  pose proof (validate_plain call p schema σ value ctx pth Hplain path
                eq_refl) as Hval.
  assert (Hreq : forall kr, kr ∈ Property.registry p -> kr.1 = "required" ->
                 third kr.2 = VBool false ->
                 Property.rule_passes call schema σ value ctx pth kr).
  { intros kr Hin Hname Hthird.
    destruct (plain_rule_verdict call test p schema σ value ctx pth Hb Hplain
                kr Hin) as (f & Hf & Hcall).
    exists f, (VBool true). split; [exact Hf |]. split; [| reflexivity].
    rewrite Hcall, Hname. unfold builtin_apply. cbn [String.eqb Ascii.eqb Bool.eqb].
    fold (third kr.2). rewrite Hthird. reflexivity. }
  split; [| split].
  - intros Hnone. rewrite Hval, run_rules_all_pass; [reflexivity | exact Hreg |].
    intros kr Hin.
    apply (other_rules_pass_absence call test p schema σ value ctx pth
             Hb Hplain Habs kr Hin).
    intros Hname. pose proof (Hreg kr Hin) as H. rewrite Hname, Hnone in H.
    discriminate H.
  - intros r Hsome Hthird.
    rewrite Hval, run_rules_all_pass; [reflexivity | exact Hreg |].
    intros kr Hin. destruct (String.eqb_spec kr.1 "required") as [Hname | Hname].
    + apply Hreq; [exact Hin | exact Hname |].
      pose proof (Hreg kr Hin) as H. rewrite Hname, Hsome in H.
      injection H as <-. exact Hthird.
    + apply (other_rules_pass_absence call test p schema σ value ctx pth
               Hb Hplain Habs kr Hin Hname).
  - intros r Hsome Hthird. rewrite Hval.
    pose proof (lookup_prop_Some_elem _ _ _ Hsome) as Hin.
    apply list_elem_of_split in Hin as (pre & post & Hsplit).
    rewrite Hsplit.
    rewrite (run_rules_first_failure call p schema σ value ctx pth pre post
               ("required", r)); [reflexivity | | |].
    + intros kr Hkr. apply Hreg. rewrite Hsplit.
      apply elem_of_app in Hkr as [Hkr | Hkr%list_elem_of_singleton].
      * apply elem_of_app. left. exact Hkr.
      * subst kr. apply elem_of_app. right. left.
    + intros kr Hkr.
      assert (Hin : kr ∈ Property.registry p).
      { rewrite Hsplit. apply elem_of_app. left. exact Hkr. }
      apply (other_rules_pass_absence call test p schema σ value ctx pth
               Hb Hplain Habs kr Hin).
      intros Hname. rewrite Hsplit, map_app in Hnd.
      apply NoDup_app in Hnd as (_ & Hdisj & _).
      apply (Hdisj kr.1).
      * apply list_elem_of_fmap. exists kr. split; [reflexivity | exact Hkr].
      * rewrite Hname. left.
    + assert (Hin : ("required", r) ∈ Property.registry p).
      { rewrite Hsplit. apply elem_of_app. right. left. }
      destruct (plain_rule_verdict call test p schema σ value ctx pth Hb Hplain
                  _ Hin) as (f & Hf & Hcall).
      exists f, (VBool false). split; [exact Hf |]. split; [| reflexivity].
      rewrite Hcall. unfold builtin_apply. cbn [fst String.eqb Ascii.eqb Bool.eqb].
      cbn [snd]. fold (third r). unfold Validators.required.
      rewrite (strict_eq_false_arg _ Hthird).
      change (actual 0 (Property.actuals σ r value ctx pth)) with value.
      rewrite Habs. reflexivity.
Qed.

Lemma builtins_call_runs_builtins :
  runs_builtins builtins_call (fun _ _ => Ok true) builtins_schema.
Proof.
  intros name Hname. unfold builtin_names in Hname.
  repeat (apply elem_of_cons in Hname as [-> | Hname];
          [match goal with
           | |- exists f, tbl_get _ ?n = _ /\ _ => exists (builtin_ref n)
           end;
           split; [vm_compute; reflexivity | intros actuals; reflexivity] |]).
  apply elem_of_nil in Hname. contradiction.
Qed.

Lemma email_rules_plain (kr : string * Property.rule) :
  kr ∈ Property.registry email_rules.1 ->
  kr.1 ∈ builtin_names /\ to_boolean (Property.fn kr.2) = false.
Proof.
  intros Hin. vm_compute in Hin.
  repeat (apply elem_of_cons in Hin as [-> | Hin];
          [split; [unfold builtin_names; cbn [fst]; set_solver | reflexivity] |]).
  apply elem_of_nil in Hin. contradiction.
Qed.

Lemma absence_is_reported_by_required_only_witness :
  (Property.validate builtins_call email_rules.1 builtins_schema email_rules.2
     VUndefined VNull None).2
  = Ok (Some (ValidationError.mk (VStr "missing") "email")).
Proof.
  refine (proj2 (proj2 (absence_is_reported_by_required_only
                          builtins_call (fun _ _ => Ok true) email_rules.1
                          builtins_schema email_rules.2 VUndefined VNull None
                          builtins_call_runs_builtins _ email_rules_plain
                          eq_refl))
            (Property.Rule 2 VUndefined) eq_refl _).
  - apply (bool_decide_unpack _). vm_compute. reflexivity.
  - vm_compute. discriminate.
Defined.
